(** * genius: lyric extraction, request executor and paginator

    A shallow embedding of the Go package [genius] (the extractor and
    genius.go, in its revision with the retry loop) together with the
    properties its specification states.

    Go strings are byte strings: they are modelled by [string] (lists of
    [ascii], one per byte).  Go's [int] is a 64-bit signed integer and is
    modelled by [Z] with the wrap-around written out ([wrap64]).  A Go
    function that returns [(T, error)] and may panic is modelled by a
    function into [outcome T].  The loops that Go leaves unbounded
    ([doRequest], [GetArtistSongs], [GetArtistAlbums]) take a fuel, and
    the outside world (the HTML parser, the HTTP transport, the service
    answering page requests) is an argument of the functions that call
    it. *)

From Stdlib Require Import List String Ascii ZArith Lia Bool Arith.
Import ListNotations.
Open Scope string_scope.

(* ================================================================== *)
(** ** Results of Go calls *)

(** A Go [error] value, identified by its message ([err.Error()]). *)
Inductive error : Type :=
| errorString (msg : string).

(** What a call does: return a value, return a non-nil [error], or panic
    (the only panics this code can raise are nil-pointer dereferences:
    [node.Type], [node.FirstChild.Attr], [node.LastChild.Attr] and
    [RemoveChild(nil)] on a nil [*html.Node]). *)
Inductive outcome (A : Type) : Type :=
| Ret (a : A)
| Err (e : error)
| Panic.

Arguments Ret {A} a.
Arguments Err {A} e.
Arguments Panic {A}.

Definition bind {A B : Type} (m : outcome A) (k : A -> outcome B) : outcome B :=
  match m with
  | Ret a => k a
  | Err e => Err e
  | Panic => Panic
  end.

Notation "x <- m ;; k" := (bind m (fun x => k))
  (at level 61, m at next level, right associativity).

(* ================================================================== *)
(** ** The parts of package [strings] the code calls *)

Definition byte (n : nat) : ascii := ascii_of_nat n.

Definition bytes (l : list nat) : string :=
  fold_right (fun n s => String (byte n) s) EmptyString l.

(** The one-byte string "\n". *)
Definition newline : string := bytes [10].

(** [strings.CutPrefix] without its flag: the rest of [s] after [p]. *)
Fixpoint cutPrefix (p s : string) : option string :=
  match p, s with
  | EmptyString, _ => Some s
  | String a p', String b s' => if Ascii.eqb a b then cutPrefix p' s' else None
  | String _ _, EmptyString => None
  end.

Definition HasPrefix (s p : string) : bool :=
  match cutPrefix p s with Some _ => true | None => false end.

(** [strings.Contains(s, substr)]: [substr] occurs at some offset of [s]. *)
Fixpoint Contains (s substr : string) : bool :=
  HasPrefix s substr ||
  match s with
  | EmptyString => false
  | String _ s' => Contains s' substr
  end.

Fixpoint rev_string (s : string) : string :=
  match s with
  | EmptyString => EmptyString
  | String a s' => rev_string s' ++ String a EmptyString
  end.

(** [strings.HasSuffix(s, suffix)]:
    [len(s) >= len(suffix) && s[len(s)-len(suffix):] == suffix]. *)
Definition HasSuffix (s suffix : string) : bool :=
  (length suffix <=? length s)%nat &&
  String.eqb (substring (length s - length suffix) (length suffix) s) suffix.

(** [strings.CutSuffix(s, suffix)]. *)
Definition CutSuffix (s suffix : string) : string * bool :=
  if HasSuffix s suffix
  then (substring 0 (length s - length suffix) s, true)
  else (s, false).

(** The UTF-8 encodings of the runes for which [unicode.IsSpace] holds:
    the six ASCII spaces, U+0085, U+00A0, U+1680, U+2000..U+200A, U+2028,
    U+2029, U+202F, U+205F and U+3000. *)
Definition spaceEncodings : list string :=
  map bytes
    [ [9]; [10]; [11]; [12]; [13]; [32];
      [194; 133]; [194; 160];
      [225; 154; 128];
      [226; 128; 128]; [226; 128; 129]; [226; 128; 130]; [226; 128; 131];
      [226; 128; 132]; [226; 128; 133]; [226; 128; 134]; [226; 128; 135];
      [226; 128; 136]; [226; 128; 137]; [226; 128; 138];
      [226; 128; 168]; [226; 128; 169]; [226; 128; 175];
      [226; 129; 159];
      [227; 128; 128] ].

(** The rest of [s] after one leading space rune, if [s] starts with one. *)
Definition cutSpace (encs : list string) (s : string) : option string :=
  fold_right
    (fun enc acc => match cutPrefix enc s with Some r => Some r | None => acc end)
    None encs.

Fixpoint trimLeftSpaces (encs : list string) (fuel : nat) (s : string) : string :=
  match fuel with
  | O => s
  | S fuel' =>
      match cutSpace encs s with
      | Some r => trimLeftSpaces encs fuel' r
      | None => s
      end
  end.

(** [strings.TrimSpace]: all leading and all trailing white space (as
    defined by Unicode) removed.  The trailing part is computed on the
    reversed string with the reversed encodings. *)
Definition TrimSpace (s : string) : string :=
  let l := trimLeftSpaces spaceEncodings (length s) s in
  rev_string (trimLeftSpaces (map rev_string spaceEncodings) (length l) (rev_string l)).

(* ================================================================== *)
(** ** The markup tree ([golang.org/x/net/html]) *)

Inductive NodeType : Type :=
| ErrorNode | TextNode | DocumentNode | ElementNode
| CommentNode | DoctypeNode | RawNode.

(** An [atom.Atom] is the integer code of a known tag name; the table of
    package [atom] is not part of this repository, so an atom is
    represented by the name it stands for ([Atom.String()]), the empty
    string being atom 0 (unknown tag, or not an element). *)
Definition Atom : Type := string.
Definition atom_Div : Atom := "div".

Record Attribute : Type := mkAttribute {
  Namespace : string;
  Key : string;
  Val : string
}.

(** [html.Node].  The sibling and parent links of the Go structure are
    replaced by the ordered list of children: [FirstChild] is its head,
    [LastChild] its last element, [NextSibling] the next element of the
    parent's list. *)
#[local] Unset Elimination Schemes.
Inductive Node : Type := mkNode {
  Type' : NodeType;
  DataAtom : Atom;
  Data : string;
  Attr : list Attribute;
  Children : list Node
}.
#[local] Set Elimination Schemes.

Definition FirstChild (n : Node) : option Node := hd_error (Children n).

Definition LastChild (n : Node) : option Node :=
  match Children n with
  | [] => None
  | c :: cs => Some (last cs c)
  end.

Definition setChildren (n : Node) (cs : list Node) : Node :=
  mkNode (Type' n) (DataAtom n) (Data n) (Attr n) cs.

(** [node.RemoveChild(node.FirstChild)] on the list of children; with no
    child the argument is nil and [RemoveChild] dereferences it. *)
Definition removeFirstChild (cs : list Node) : outcome (list Node) :=
  match cs with
  | [] => Panic
  | _ :: cs' => Ret cs'
  end.

(** [node.RemoveChild(node.LastChild)]. *)
Definition removeLastChild (cs : list Node) : outcome (list Node) :=
  match cs with
  | [] => Panic
  | _ :: _ => Ret (removelast cs)
  end.

(* ================================================================== *)
(** ** extractor.go *)

Record Extractor : Type := mkExtractor {
  reader : string;
  root : option Node;
  node : option Node;
  text : string
}.

Definition NewExtractor (r : string) : Extractor := mkExtractor r None None "".

Definition setRoot (e : Extractor) (r : Node) : Extractor :=
  mkExtractor (reader e) (Some r) (node e) (text e).
Definition setNode (e : Extractor) (n : Node) : Extractor :=
  mkExtractor (reader e) (root e) (Some n) (text e).
Definition setText (e : Extractor) (t : string) : Extractor :=
  mkExtractor (reader e) (root e) (node e) t.

(** [type visitFunc func(node *html.Node) bool]; the methods used as visit
    functions read and write the extractor, which is threaded through. *)
Definition visitFunc : Type := Extractor -> Node -> outcome (Extractor * bool).

Definition htmlToText : visitFunc := fun e node =>
  match Type' node with
  | TextNode => Ret (setText e (text e ++ Data node ++ newline), true)
  | _ => Ret (e, true)
  end.

(** The two inner loops of [findDivLyrics]:
    [for _, a := range child.Attr { if strings.Contains(a.Val, marker) { node.RemoveChild(...) } }].
    The attribute slice is fixed when the loop starts; the child that is
    removed is read again from the node at every hit. *)
Fixpoint stripLoop (marker : string)
    (remove : list Node -> outcome (list Node))
    (attrs : list Attribute) (cs : list Node) : outcome (list Node) :=
  match attrs with
  | [] => Ret cs
  | a :: attrs' =>
      if Contains (Val a) marker
      then cs' <- remove cs ;; stripLoop marker remove attrs' cs'
      else stripLoop marker remove attrs' cs
  end.

(** The body run at the first attribute [id="lyrics-root"] of a div: the
    children of [n] after the header and footer loops.  [n.FirstChild.Attr]
    and [n.LastChild.Attr] dereference a nil pointer when there is no
    child. *)
Definition stripBoilerplate (n : Node) : outcome Node :=
  match FirstChild n with
  | None => Panic
  | Some first =>
      cs1 <- stripLoop "LyricsHeader" removeFirstChild (Attr first) (Children n) ;;
      match LastChild (setChildren n cs1) with
      | None => Panic
      | Some lastc =>
          cs2 <- stripLoop "Footer" removeLastChild (Attr lastc) cs1 ;;
          Ret (setChildren n cs2)
      end
  end.

Definition isLyricsRootAttr (a : Attribute) : bool :=
  String.eqb (Key a) "id" && String.eqb (Val a) "lyrics-root".

(** The tree is edited in place and [e.node] points at the edited node;
    nothing reads the rest of the tree afterwards (the walk does not
    descend into the edited node), so the edited node is kept in [e.node]
    by value.  [root] keeps the tree as it was parsed: the edit is not
    replayed on it, and it is not read again. *)
Definition findDivLyrics : visitFunc := fun e n =>
  if negb (String.eqb (DataAtom n) atom_Div) then Ret (e, true)
  else
    (fix attrLoop (attrs : list Attribute) : outcome (Extractor * bool) :=
       match attrs with
       | [] => Ret (e, true)
       | attr :: attrs' =>
           if isLyricsRootAttr attr
           then n' <- stripBoilerplate n ;; Ret (setNode e n', false)
           else attrLoop attrs'
       end) (Attr n).

Definition skippedType (t : NodeType) : bool :=
  match t with
  | CommentNode | DoctypeNode | ErrorNode => true
  | _ => false
  end.

Fixpoint walk (fn : visitFunc) (n : Node) (e : Extractor) {struct n}
    : outcome Extractor :=
  if skippedType (Type' n) then Ret e
  else
    r <- fn e n ;;
    if snd r
    then
      (fix walkChildren (cs : list Node) (e : Extractor) {struct cs}
           : outcome Extractor :=
         match cs with
         | [] => Ret e
         | child :: cs' => e' <- walk fn child e ;; walkChildren cs' e'
         end) (Children n) (fst r)
    else Ret (fst r).

(** [e.walk(p, fn)] on a pointer: [p.Type] on a nil pointer panics. *)
Definition walkPtr (fn : visitFunc) (p : option Node) (e : Extractor)
    : outcome Extractor :=
  match p with
  | None => Panic
  | Some n => walk fn n e
  end.

Section Parse.

(** [html.Parse] applied to the reader's bytes: a tree or an error. *)
Variable html_Parse : string -> Node + error.

Definition Extract (e : Extractor) : outcome string :=
  match html_Parse (reader e) with
  | inr err => Err err
  | inl r =>
      e1 <- walk findDivLyrics r (setRoot e r) ;;
      e2 <- walkPtr htmlToText (node e1) e1 ;;
      Ret (text e2)
  end.

(** The end of [GetLyrics], from [strings.TrimSpace] on. *)
Definition trimEmbed (lyrics : string) : string :=
  let lyrics := TrimSpace lyrics in
  if HasSuffix lyrics "Embed"
  then fst (CutSuffix lyrics "Embed")
  else lyrics.

(** [GetLyrics], given what fetching the page produced (the body read by
    [io.ReadAll], or the error of the request or of the read). *)
Definition GetLyrics (fetched : string + error) : outcome string :=
  match fetched with
  | inr err => Err err
  | inl bodyBytes =>
      lyrics <- Extract (NewExtractor bodyBytes) ;;
      Ret (trimEmbed lyrics)
  end.

End Parse.

(* ================================================================== *)
(** ** Machine integers *)

(** Go's [int] on the 64-bit platforms the package targets: arithmetic
    wraps around modulo 2^64. *)
Definition wrap64 (z : Z) : Z := ((z + 2 ^ 63) mod 2 ^ 64 - 2 ^ 63)%Z.

Definition int_sub (a b : Z) : Z := wrap64 (a - b).
Definition int_mul (a b : Z) : Z := wrap64 (a * b).

(* ================================================================== *)
(** ** genius.go: the request executor *)

(** [time.Duration]: a count of nanoseconds in an [int64]. *)
Definition Duration : Type := Z.
Definition Second : Duration := 1000000000%Z.
Definition defaultRetryDuration : Duration := int_mul Second 5.

Definition isDigit (c : ascii) : bool :=
  ((48 <=? nat_of_ascii c) && (nat_of_ascii c <=? 57))%nat.

Definition digitVal (c : ascii) : Z := Z.of_nat (nat_of_ascii c - 48).

Fixpoint parseDigits (s : string) (acc : Z) : option Z :=
  match s with
  | EmptyString => Some acc
  | String c s' =>
      if isDigit c then parseDigits s' (10 * acc + digitVal c)%Z else None
  end.

(** [strconv.ParseInt(s, 10, 32)]: an optional sign and at least one
    decimal digit, nothing else; [None] stands for a non-nil error
    (syntax, or value outside the 32-bit range). *)
Definition ParseInt10_32 (s : string) : option Z :=
  match s with
  | EmptyString => None
  | String c s' =>
      let neg := Ascii.eqb c "-" in
      let digits := if Ascii.eqb c "+" || neg then s' else s in
      match digits with
      | EmptyString => None
      | String _ _ =>
          match parseDigits digits 0 with
          | None => None
          | Some u =>
              let v := if neg then (- u)%Z else u in
              if ((- 2 ^ 31 <=? v) && (v <=? 2 ^ 31 - 1))%Z then Some v else None
          end
      end
  end.

(** What the executor reads of an [*http.Response]: the status code, the
    value of [Header.Get("Retry-After")] (empty when the header is absent)
    and what [io.ReadAll(resp.Body)] gives. *)
Record HTTPResponse : Type := mkHTTPResponse {
  StatusCode : Z;
  RetryAfter : string;
  Body : string + error
}.

Definition retryDuration (resp : HTTPResponse) : Duration :=
  let raw := RetryAfter resp in
  if String.eqb raw "" then defaultRetryDuration
  else
    match ParseInt10_32 raw with
    | None => defaultRetryDuration
    | Some seconds => int_mul seconds Second
    end.

(** An [*http.Request] as far as the executor goes: its target and its
    header, a list of key/value pairs. *)
Record HTTPRequest : Type := mkHTTPRequest {
  URL : string;
  Header : list (string * string)
}.

(** [req.Header.Set(k, v)]: the values under [k] are replaced by [v]. *)
Definition HeaderSet (req : HTTPRequest) (k v : string) : HTTPRequest :=
  mkHTTPRequest (URL req)
    (filter (fun kv => negb (String.eqb (fst kv) k)) (Header req) ++ [(k, v)])%list.

(** What the executor does to the outside world, in order. *)
Inductive event : Type :=
| Sent (req : HTTPRequest)
| Slept (d : Duration).

(** The loop of [doRequest].  [Do k req] is what the [k]-th call of
    [c.client.Do] returns for [req].  The loop has no bound in Go; [fuel]
    bounds the number of attempts of the model, [None] meaning that the
    loop is still running when the fuel is spent. *)
Fixpoint doRequestLoop (Do : nat -> HTTPRequest -> HTTPResponse + error)
    (req : HTTPRequest) (fuel attempt : nat) (trace : list event)
    : option (outcome string * list event) :=
  match fuel with
  | O => None
  | S fuel' =>
      let trace := (trace ++ [Sent req])%list in
      match Do attempt req with
      | inr err => Some (Err err, trace)
      | inl resp =>
          if (StatusCode resp =? 429)%Z || (StatusCode resp =? 1015)%Z
          then doRequestLoop Do req fuel' (S attempt)
                 (trace ++ [Slept (retryDuration resp)])%list
          else
            match Body resp with
            | inr err => Some (Err err, trace)
            | inl body =>
                if negb (StatusCode resp =? 200)%Z
                then Some (Err (errorString body), trace)
                else Some (Ret body, trace)
            end
      end
  end.

Definition authorize (AccessToken : string) (req : HTTPRequest) : HTTPRequest :=
  HeaderSet (HeaderSet req "Authorization" ("Bearer " ++ AccessToken))
    "Content-Type" "application/json".

Definition doRequest (AccessToken : string)
    (Do : nat -> HTTPRequest -> HTTPResponse + error)
    (req : HTTPRequest) (fuel : nat) : option (outcome string * list event) :=
  doRequestLoop Do (authorize AccessToken req) fuel 0 [].

(* ================================================================== *)
(** ** genius.go: the paginated fetches *)

(** Modelled from the spec: the declarations of [Song] and [Album] are
    not among the sources; the loops only move these values around, and
    each is represented by its identifier. *)
Record Song : Type := mkSong { SongID : Z }.
Record Album : Type := mkAlbum { AlbumID : Z }.

(** Modelled from the spec: the declaration of the decoded payload is not
    among the sources; it is "a list of resources with a next-page cursor
    field", of which the loops read [Songs], [Albums] and [NextPage] (an
    [int]: zero when the field is absent or null). *)
Record ResponseBody : Type := mkResponseBody {
  Songs : list Song;
  Albums : list Album;
  NextPage : Z
}.

(** Modelled from the spec: the declaration of [GeniusResponse] is not
    among the sources; the envelope is "a JSON object with a single
    top-level field wrapping the actual payload".  [Response] is a pointer
    in Go ([getSong] tests it against nil). *)
Record GeniusResponse : Type := mkGeniusResponse {
  Response : option ResponseBody
}.

(** The query of one page request: [per_page] and [page]. *)
Record PageRequest : Type := mkPageRequest {
  per_page : Z;
  page : Z
}.

Definition getPerPage (total fetched perPage : Z) : Z :=
  let newPerPage := int_sub total fetched in
  if (newPerPage <? perPage)%Z then newPerPage else perPage.

Section Pages.

(** [getPage k q]: what the [k]-th call of the page function
    ([getArtistSongsPage] or [getArtistAlbumsPage]: [doRequest] followed by
    [json.Unmarshal]) returns for the query [q]. *)
Variable getPage : nat -> PageRequest -> outcome GeniusResponse.

(** The loop of [GetArtistSongs] ([id] and [sort] only appear in the
    URL of the page requests and are left out); [k] counts the calls made
    so far,
    [trace] lists their queries; the result is [None] when the fuel is
    spent while the loop is still running. *)
Fixpoint songsLoop (fetchUntilEnd : bool) (total perPage : Z)
    (fuel k : nat) (songs : list Song) (page newPerPage : Z)
    (trace : list PageRequest)
    : option (outcome (list Song)) * list PageRequest :=
  match fuel with
  | O => (None, trace)
  | S fuel' =>
      if fetchUntilEnd || (0 <? newPerPage)%Z
      then
        let q := mkPageRequest newPerPage page in
        match getPage k q with
        | Err err => (Some (Err err), (trace ++ [q])%list)
        | Panic => (Some Panic, (trace ++ [q])%list)
        | Ret response =>
            match Response response with
            | None => (Some Panic, (trace ++ [q])%list)
            | Some body =>
                if fetchUntilEnd && (NextPage body =? 0)%Z
                then (Some (Ret songs), (trace ++ [q])%list)
                else
                  let songs := (songs ++ Songs body)%list in
                  let page := NextPage body in
                  let newPerPage :=
                    if negb fetchUntilEnd
                    then getPerPage total (int_mul (int_sub page 1) perPage) perPage
                    else newPerPage in
                  songsLoop fetchUntilEnd total perPage fuel' (S k) songs page
                    newPerPage ((trace ++ [q])%list)
            end
        end
      else (Some (Ret songs), trace)
  end.

Definition GetArtistSongs (total : Z) (fuel : nat)
    : option (outcome (list Song)) * list PageRequest :=
  let perPage := 50%Z in
  let page := 1%Z in
  let fetchUntilEnd := (total =? -1)%Z in
  let newPerPage :=
    if negb fetchUntilEnd
    then getPerPage total (int_mul (int_sub page 1) perPage) perPage
    else 0%Z in
  songsLoop fetchUntilEnd total perPage fuel 0 [] page newPerPage [].

(** The loop of [GetArtistAlbums]. *)
Fixpoint albumsLoop (fuel k : nat) (albums : list Album) (page : Z)
    (trace : list PageRequest)
    : option (outcome (list Album)) * list PageRequest :=
  match fuel with
  | O => (None, trace)
  | S fuel' =>
      if (1 <=? page)%Z
      then
        let q := mkPageRequest 50 page in
        match getPage k q with
        | Err err => (Some (Err err), (trace ++ [q])%list)
        | Panic => (Some Panic, (trace ++ [q])%list)
        | Ret response =>
            match Response response with
            | None => (Some Panic, (trace ++ [q])%list)
            | Some body =>
                albumsLoop fuel' (S k) (albums ++ Albums body)%list (NextPage body)
                  ((trace ++ [q])%list)
            end
        end
      else (Some (Ret albums), trace)
  end.

Definition GetArtistAlbums (fuel : nat)
    : option (outcome (list Album)) * list PageRequest :=
  albumsLoop fuel 0 [] 1 [].

End Pages.

(* ================================================================== *)
(** ** Notions used to state the properties *)

(** Every node of the tree under [n], [n] included, in document order. *)
Fixpoint allNodes (n : Node) : list Node :=
  n :: flat_map allNodes (Children n).

(** The nodes a walk reaches when its visit function never prunes:
    comment, doctype and error nodes are neither visited nor entered. *)
Fixpoint visited (n : Node) : list Node :=
  if skippedType (Type' n) then []
  else n :: flat_map visited (Children n).

Definition hasLyricsRootId (n : Node) : bool :=
  existsb isLyricsRootAttr (Attr n).

(** The test [findDivLyrics] applies: a div carrying [id="lyrics-root"]. *)
Definition isTarget (n : Node) : bool :=
  String.eqb (DataAtom n) atom_Div && hasLyricsRootId n.

(** The matches met by a depth-first, pre-order traversal that skips
    comment, doctype and error nodes and does not enter a match. *)
Fixpoint encountered (n : Node) : list Node :=
  if skippedType (Type' n) then []
  else if isTarget n then [n]
  else flat_map encountered (Children n).

(** What [findDivLyrics] does with a match: strip it and keep it. *)
Definition keepStripped (e : Extractor) (m : Node) : outcome Extractor :=
  m' <- stripBoilerplate m ;; Ret (setNode e m').

Fixpoint foldOutcome {A B : Type} (f : A -> B -> outcome A) (l : list B) (a : A)
    : outcome A :=
  match l with
  | [] => Ret a
  | b :: l' => a' <- f a b ;; foldOutcome f l' a'
  end.

Definition isTextNode (n : Node) : bool :=
  match Type' n with TextNode => true | _ => false end.

Fixpoint concatLines (l : list Node) : string :=
  match l with
  | [] => ""
  | t :: l' => Data t ++ newline ++ concatLines l'
  end.

(** The payloads of the text nodes under [n], in document order, each
    followed by a newline. *)
Definition textLines (n : Node) : string :=
  concatLines (filter isTextNode (allNodes n)).

(** Comment, doctype and error nodes are leaves, as in every tree the
    parser builds. *)
Definition leavesClosed (n : Node) : Prop :=
  forall m, In m (allNodes n) -> skippedType (Type' m) = true -> Children m = [].

Definition hits (marker : string) (attrs : list Attribute) : nat :=
  List.length (filter (fun a => Contains (Val a) marker) attrs).

(** Following the specification's words: the container without its first
    child when an attribute value of that child contains "LyricsHeader",
    and without its last child when an attribute value of that child
    contains "Footer". *)
Definition withoutHeader (cs : list Node) : list Node :=
  match cs with
  | [] => []
  | first :: rest =>
      if existsb (fun a => Contains (Val a) "LyricsHeader") (Attr first)
      then rest else cs
  end.

Definition withoutFooter (cs : list Node) : list Node :=
  match cs with
  | [] => []
  | c :: cs' =>
      if existsb (fun a => Contains (Val a) "Footer") (Attr (last cs' c))
      then removelast cs else cs
  end.

Definition specStripped (c : Node) : Node :=
  setChildren c (withoutFooter (withoutHeader (Children c))).

(** The children on which both loops of [stripBoilerplate] run without
    touching a missing child: a first child with at most one attribute
    value containing "LyricsHeader", and, once the header is gone, a last
    child with at most one attribute value containing "Footer". *)
Definition strippable (c : Node) : Prop :=
  match Children c with
  | [] => False
  | first :: _ =>
      (hits "LyricsHeader" (Attr first) <= 1)%nat /\
      match withoutHeader (Children c) with
      | [] => False
      | k :: ks => (hits "Footer" (Attr (last ks k)) <= 1)%nat
      end
  end.

(* ================================================================== *)
(** ** Sample documents *)

Definition textNode (s : string) : Node := mkNode TextNode "" s [] [].

Definition element (tag : string) (attrs : list (string * string))
    (cs : list Node) : Node :=
  mkNode ElementNode tag tag
    (map (fun kv => mkAttribute "" (fst kv) (snd kv)) attrs) cs.

(** The tree the parser builds around the content of a body. *)
Definition document (content : list Node) : Node :=
  mkNode DocumentNode "" "" []
    [element "html" [] [element "head" [] []; element "body" [] content]].

Definition parsesTo (r : Node) : string -> Node + error := fun _ => inl r.

(** [<section id="lyrics-root">la</section>] *)
Definition sectionContainer : Node :=
  element "section" [("id", "lyrics-root")] [textNode "la"].

Definition sectionDocument : Node := document [sectionContainer].

(** [<div id="lyrics-root"><div class="LyricsHeader__Container">Title</div>la<br>li<div class="LyricsFooter">3Embed</div></div>] *)
Definition lyricsContainer : Node :=
  element "div" [("id", "lyrics-root")]
    [element "div" [("class", "LyricsHeader__Container")] [textNode "Title"];
     textNode "la"; element "br" [] []; textNode "li";
     element "div" [("class", "LyricsFooter")] [textNode "3Embed"]].

(** [<p>no lyrics here</p>] *)
Definition plainDocument : Node :=
  document [element "p" [] [textNode "no lyrics here"]].

(** [<div id="lyrics-root">one</div><p>between</p><div id="lyrics-root">two<div id="lyrics-root">inner</div></div>] *)
Definition twoContainers : Node :=
  document
    [element "div" [("id", "lyrics-root")] [textNode "one"];
     element "p" [] [textNode "between"];
     element "div" [("id", "lyrics-root")]
       [textNode "two"; element "div" [("id", "lyrics-root")] [textNode "inner"]]].

(** [<div id="lyrics-root">one</div><section id="lyrics-root">two</section>] *)
Definition divThenSection : Node :=
  document
    [element "div" [("id", "lyrics-root")] [textNode "one"];
     element "section" [("id", "lyrics-root")] [textNode "two"]].

(** A comment followed by the container above. *)
Definition lyricsPage : Node :=
  document [mkNode CommentNode "" " page " [] []; lyricsContainer].

(* ================================================================== *)
(** ** Notions used to state the properties of the executor *)

(** A rate-limited response. *)
Definition throttled (resp : HTTPResponse) : bool :=
  (StatusCode resp =? 429)%Z || (StatusCode resp =? 1015)%Z.

Definition sentRequests (trace : list event) : list HTTPRequest :=
  flat_map (fun ev => match ev with Sent r => [r] | Slept _ => [] end) trace.

Definition sleeps (trace : list event) : list Duration :=
  flat_map (fun ev => match ev with Sent _ => [] | Slept d => [d] end) trace.

(** What one retry round adds to the trace. *)
Definition rounds (req : HTTPRequest) (resps : list HTTPResponse) : list event :=
  flat_map (fun resp => [Sent req; Slept (retryDuration resp)]) resps.

(** The first answers of the transport are the rate-limited responses
    [resps], in this order. *)
Definition throttledFirst (Do : nat -> HTTPRequest -> HTTPResponse + error)
    (req : HTTPRequest) (resps : list HTTPResponse) : Prop :=
  forall k resp, nth_error resps k = Some resp ->
                 Do k req = inl resp /\ throttled resp = true.

(** The call returns [out] after having sent the authorized request
    [sent] times, and nothing else. *)
Definition returnsAfter (AccessToken : string)
    (Do : nat -> HTTPRequest -> HTTPResponse + error)
    (req : HTTPRequest) (fuel : nat) (out : outcome string) (sent : nat) : Prop :=
  exists trace,
    doRequest AccessToken Do req fuel = Some (out, trace) /\
    sentRequests trace = repeat (authorize AccessToken req) sent.

(** The decimal digits of [n], most significant first, in front of [acc]. *)
Fixpoint digitsOf (fuel : nat) (n : Z) (acc : string) : string :=
  match fuel with
  | O => acc
  | S fuel' =>
      let acc' := String (byte (48 + Z.to_nat (n mod 10))) acc in
      if (n / 10 =? 0)%Z then acc' else digitsOf fuel' (n / 10) acc'
  end.

(** [strconv.Itoa]: how an integer is written in decimal. *)
Definition Itoa (z : Z) : string :=
  if (z <? 0)%Z then String "-" (digitsOf 20 (- z) "") else digitsOf 20 z "".

(** A transport answering 429, then 1015 with [Retry-After: 2], then 500. *)
Definition flakyTransport : nat -> HTTPRequest -> HTTPResponse + error :=
  fun k _ =>
    match k with
    | 0%nat => inl (mkHTTPResponse 429 "" (inl "slow down"))
    | 1%nat => inl (mkHTTPResponse 1015 "2" (inl "blocked"))
    | _ => inl (mkHTTPResponse 500 "" (inl "boom"))
    end.

Definition flakyResponses : list HTTPResponse :=
  [mkHTTPResponse 429 "" (inl "slow down"); mkHTTPResponse 1015 "2" (inl "blocked")].

Definition accountRequest : HTTPRequest :=
  mkHTTPRequest "https://api.genius.com/account/" [].

(* ================================================================== *)
(** ** Notions used to state the properties of the paginated fetches *)

Definition envelope (b : ResponseBody) : outcome GeniusResponse :=
  Ret (mkGeniusResponse (Some b)).

(** The [k]-th call of the page function is answered with the [k]-th
    decoded page of [pages]. *)
Definition answersWith (getPage : nat -> PageRequest -> outcome GeniusResponse)
    (pages : list ResponseBody) : Prop :=
  forall k b q, nth_error pages k = Some b -> getPage k q = envelope b.

Definition requestedItems (trace : list PageRequest) : Z :=
  fold_right (fun q acc => (per_page q + acc)%Z) 0%Z trace.

(** The queries of a bounded fetch of [total] items when every answer
    names the page after the one asked for: [n] queries from page [p] on. *)
Fixpoint planFrom (n : nat) (total p : Z) : list PageRequest :=
  match n with
  | O => []
  | S n' =>
      mkPageRequest (Z.min 50 (total - (p - 1) * 50)) p
      :: planFrom n' total (p + 1)
  end.

Definition pagesNeeded (remaining : Z) : nat := Z.to_nat ((remaining + 49) / 50).

Definition songsFrom (first : Z) (count : nat) : list Song :=
  map (fun i => mkSong (first + Z.of_nat i)) (seq 0 count).

(** A catalogue of two songs and one album that fits on one page: the
    answer carries no next page. *)
Definition onePage : ResponseBody :=
  mkResponseBody [mkSong 1; mkSong 2] [mkAlbum 7] 0.

Definition onePageServer : nat -> PageRequest -> outcome GeniusResponse :=
  fun _ _ => envelope onePage.

(** An artist with 30 songs: the first answer holds them all and carries
    no next page; the service rejects a query for page 0. *)
Definition thirtySongs : ResponseBody := mkResponseBody (songsFrom 1 30) [] 0.

Definition exhaustedServer : nat -> PageRequest -> outcome GeniusResponse :=
  fun _ q =>
    if (page q <? 1)%Z then Err (errorString "invalid page")
    else envelope thirtySongs.

(** Every answer of the service holds as many songs as were asked for. *)
Definition fullPages (getPage : nat -> PageRequest -> outcome GeniusResponse)
    : Prop :=
  forall k q body, (0 < per_page q)%Z -> getPage k q = envelope body ->
                   Z.of_nat (List.length (Songs body)) = per_page q.

(** Every answer of the service names the page after the one asked for. *)
Definition namesNextPage (getPage : nat -> PageRequest -> outcome GeniusResponse)
    : Prop :=
  forall k q, exists body,
    getPage k q = envelope body /\ NextPage body = (page q + 1)%Z.

(** A service whose pages hold 40 songs at most, each answer naming the
    next page. *)
Definition shortServer : nat -> PageRequest -> outcome GeniusResponse :=
  fun _ q =>
    envelope (mkResponseBody
                (songsFrom ((page q - 1) * 40 + 1)
                   (Z.to_nat (Z.min 40 (per_page q))))
                [] (page q + 1)).

(** A service with as many songs as asked for: every answer is a full
    page and names the next one. *)
Definition fullServer : nat -> PageRequest -> outcome GeniusResponse :=
  fun _ q =>
    envelope (mkResponseBody
                (songsFrom ((page q - 1) * 50 + 1) (Z.to_nat (per_page q)))
                [] (page q + 1)).

(* ================================================================== *)
(** ** genius.go: the client and its options *)

(** An [*http.Client] as far as this package goes: what its [Do] answers. *)
Definition HTTPClient : Type := nat -> HTTPRequest -> HTTPResponse + error.

Record Client : Type := mkClient {
  AccessToken : string;
  baseURL : string;
  unofficialUrl : string;
  client : HTTPClient
}.

(** [type ClientOption func(client *Client)]: an option edits the client. *)
Definition ClientOption : Type := Client -> Client.

Definition WithBaseURL (url : string) : ClientOption := fun c =>
  mkClient (AccessToken c) url (unofficialUrl c) (client c).

Section DefaultClient.

(** [http.DefaultClient]. *)
Variable http_DefaultClient : HTTPClient.

(** [NewClient(httpClient, token, opts...)]; a nil [httpClient] is [None]. *)
Definition NewClient (httpClient : option HTTPClient) (token : string)
    (opts : list ClientOption) : Client :=
  let httpClient :=
    match httpClient with
    | None => http_DefaultClient
    | Some h => h
    end in
  let c := mkClient token "https://api.genius.com" "https://genius.com/api"
             httpClient in
  fold_left (fun c opt => opt c) opts c.

End DefaultClient.

(** [req.Header.Values(k)]: the values stored under [k], in order. *)
Definition headerValues (h : list (string * string)) (k : string) : list string :=
  map snd (filter (fun kv => String.eqb (fst kv) k) h).

(* ================================================================== *)
(** ** genius.go: picking an item in a search response *)

(** Modelled from the spec: the declarations of the search payload are
    not among the sources; it is "a faceted search-results structure
    grouped into typed sections each containing ranked hits".  Of a hit the
    code reads [Result] (a [*Song], nil being [None]), of a section [Type]
    and [Hits], of the payload [Sections]. *)
Record Hit : Type := mkHit { Result : option Song }.

Record SearchSection : Type := mkSearchSection {
  SectionType : string;
  Hits : list Hit
}.

Record SearchBody : Type := mkSearchBody { Sections : list SearchSection }.

(** The [*GeniusResponse] handed to the search helpers: its [Response]
    pointer, seen as a search payload. *)
Record SearchEnvelope : Type := mkSearchEnvelope {
  SearchResponse : option SearchBody
}.

Section Search.

(** [strings.EqualFold]: equality under Unicode case folding; the folding
    tables are not modelled. *)
Variable EqualFold : string -> string -> bool.

(** [Song.Title], a field of the declaration that is not among the sources. *)
Variable Title : Song -> string.

(** The first loop: the hits of the sections of type [itemType]. *)
Fixpoint collectHits (sections : list SearchSection) (itemType : string)
    (hits : list Hit) : list Hit :=
  match sections with
  | [] => hits
  | section :: sections' =>
      collectHits sections' itemType
        (if String.eqb (SectionType section) itemType
         then (hits ++ Hits section)%list else hits)
  end.

(** The second loop; [None] when it ends without returning.
    [hit.Result.Title] dereferences a nil [Result]. *)
Fixpoint matchLoop (resultType searchTerm : string) (hits : list Hit)
    : option (outcome (option Song)) :=
  match hits with
  | [] => None
  | hit :: hits' =>
      if EqualFold resultType "name"
      then
        match Result hit with
        | None => Some Panic
        | Some song =>
            if EqualFold (Title song) searchTerm
            then Some (Ret (Result hit))
            else matchLoop resultType searchTerm hits'
        end
      else matchLoop resultType searchTerm hits'
  end.

(** The result is a [*Song] and an error: [Ret None] is [(nil, nil)]. *)
Definition getItemFromSearchResponse (response : option SearchEnvelope)
    (searchTerm itemType resultType : string) : outcome (option Song) :=
  match response with
  | None => Panic
  | Some envelope =>
      match SearchResponse envelope with
      | None => Panic
      | Some body =>
          let hits := collectHits (Sections body) itemType [] in
          match matchLoop resultType searchTerm hits with
          | Some r => r
          | None =>
              if (List.length hits <? 1)%nat
              then Err (errorString ("could not find a match for: " ++ searchTerm))
              else
                match hits with
                | hit :: _ => Ret (Result hit)
                | [] => Panic
                end
          end
      end
  end.

Definition GetArtistFromSearchResponse (response : option SearchEnvelope)
    (searchTerm : string) : outcome (option Song) :=
  getItemFromSearchResponse response searchTerm "artist" "name".

Definition GetSongFromSearchResponse (response : option SearchEnvelope)
    (searchTerm : string) : outcome (option Song) :=
  getItemFromSearchResponse response searchTerm "song" "title".

End Search.

(* ================================================================== *)
(** ** Notions used to state the further properties *)

(** The hits of the sections of type [itemType], in the order of the
    response. *)
Definition hitsOfType (body : SearchBody) (itemType : string) : list Hit :=
  flat_map Hits
    (filter (fun section => String.eqb (SectionType section) itemType)
       (Sections body)).

Definition searchResponse (sections : list SearchSection) : option SearchEnvelope :=
  Some (mkSearchEnvelope (Some (mkSearchBody sections))).

(** A response with a section of artists and a section of songs; the
    title of a song is written from its identifier. *)
Definition sampleTitle (s : Song) : string :=
  if (SongID s =? 1)%Z then "Adele"
  else if (SongID s =? 2)%Z then "ABBA"
  else if (SongID s =? 3)%Z then "Hello"
  else "Waterloo".

Definition sampleSearch : list SearchSection :=
  [mkSearchSection "artist" [mkHit (Some (mkSong 1)); mkHit (Some (mkSong 2))];
   mkSearchSection "song" [mkHit (Some (mkSong 3)); mkHit (Some (mkSong 4))]].

(** The text starts with a white-space rune. *)
Definition startsWithSpace (s : string) : bool :=
  match cutSpace spaceEncodings s with Some _ => true | None => false end.

(** The text ends with a white-space rune. *)
Definition endsWithSpace (s : string) : bool :=
  match cutSpace (map rev_string spaceEncodings) (rev_string s) with
  | Some _ => true
  | None => false
  end.

(** [<div id="lyrics-root"></div>] followed by a well-formed container. *)
Definition emptyContainerFirst : Node :=
  document [element "div" [("id", "lyrics-root")] []; lyricsContainer].

(** The container of [lyricsPage] between two paragraphs. *)
Definition noisyLyricsPage : Node :=
  document [element "p" [] [textNode "before"]; lyricsContainer;
            element "p" [] [textNode "after"]].

(** A container whose first child has two attribute values containing
    "LyricsHeader". *)
Definition twoHitsContainer : Node :=
  element "div" [("id", "lyrics-root")]
    [element "div" [("class", "LyricsHeader"); ("data-x", "LyricsHeaderTitle")]
       [textNode "Title"];
     textNode "first line"; textNode "second line"].

(** A container whose only child is its header. *)
Definition headerOnlyContainer : Node :=
  element "div" [("id", "lyrics-root")]
    [element "div" [("class", "LyricsHeader__Container")] [textNode "Title"]].

(** A service that names page 2 as next page in every answer. *)
Definition endlessServer : nat -> PageRequest -> outcome GeniusResponse :=
  fun _ _ => envelope (mkResponseBody [mkSong 1] [mkAlbum 7] 2).

(** A service whose second answer is an error. *)
Definition failingServer : nat -> PageRequest -> outcome GeniusResponse :=
  fun k _ =>
    match k with
    | 0%nat => envelope (mkResponseBody [mkSong 1] [mkAlbum 7] 2)
    | _ => Err (errorString "upstream")
    end.

(** A service whose second answer has no ["response"] field. *)
Definition hollowServer : nat -> PageRequest -> outcome GeniusResponse :=
  fun k _ =>
    match k with
    | 0%nat => envelope (mkResponseBody [mkSong 1] [mkAlbum 7] 2)
    | _ => Ret (mkGeniusResponse None)
    end.

(* ================================================================== *)
(** * Properties of the extractor *)

Lemma Node_ind (P : Node -> Prop) :
  (forall t a d attrs cs, Forall P cs -> P (mkNode t a d attrs cs)) ->
  forall n, P n.
Proof.
  intros H. fix IH 1. intros [t a d attrs cs]. apply H.
  induction cs as [|c cs IHcs]; constructor; [apply IH | exact IHcs].
Qed.

(** The loop over the children inside [walk], as a fold. *)
Lemma walk_unfold fn n e :
  walk fn n e =
  if skippedType (Type' n) then Ret e
  else r <- fn e n ;;
       if snd r then foldOutcome (fun e c => walk fn c e) (Children n) (fst r)
       else Ret (fst r).
Proof.
  destruct n as [t a d attrs cs]; simpl.
  destruct (skippedType t); [reflexivity|].
  destruct (fn e (mkNode t a d attrs cs)) as [[e1 b]| |]; simpl; try reflexivity.
  destruct b; [|reflexivity].
  revert e1. induction cs as [|c cs IH]; intros e1; simpl; [reflexivity|].
  destruct (walk fn c e1); simpl; auto.
Qed.

Lemma foldOutcome_app {A B : Type} (f : A -> B -> outcome A) l1 l2 a :
  foldOutcome f (l1 ++ l2)%list a = a' <- foldOutcome f l1 a ;; foldOutcome f l2 a'.
Proof.
  revert a. induction l1 as [|b l1 IH]; intros a; simpl; [reflexivity|].
  destruct (f a b); simpl; auto.
Qed.

(** [findDivLyrics] on a node, by cases on the test. *)
Lemma findDivLyrics_spec e n :
  findDivLyrics e n =
  if isTarget n then r <- keepStripped e n ;; Ret (r, false) else Ret (e, true).
Proof.
  unfold findDivLyrics, isTarget, hasLyricsRootId, keepStripped.
  destruct (String.eqb (DataAtom n) atom_Div); simpl; [|reflexivity].
  induction (Attr n) as [|a attrs IH]; simpl; [reflexivity|].
  destruct (isLyricsRootAttr a); simpl; [|exact IH].
  destruct (stripBoilerplate n); reflexivity.
Qed.

(** Pass 1 visits the encountered matches in order, each one replacing
    the container kept before it. *)
Lemma walk_findDivLyrics n : forall e,
  walk findDivLyrics n e = foldOutcome keepStripped (encountered n) e.
Proof.
  induction n as [t a d attrs cs IH] using Node_ind; intros e.
  rewrite walk_unfold, findDivLyrics_spec.
  cbn [encountered Type' Children].
  destruct (skippedType t); [reflexivity|].
  destruct (isTarget (mkNode t a d attrs cs)).
  - simpl. destruct (keepStripped e (mkNode t a d attrs cs)); reflexivity.
  - simpl. revert e. induction IH as [|c cs Hc _ IHcs]; intros e; simpl; [reflexivity|].
    rewrite foldOutcome_app, Hc.
    destruct (foldOutcome keepStripped (encountered c) e); simpl; auto.
Qed.

Lemma append_assoc (a b c : string) : (a ++ b) ++ c = a ++ (b ++ c).
Proof. induction a as [|x a IH]; simpl; [reflexivity | now rewrite IH]. Qed.

Lemma append_nil_r (a : string) : a ++ "" = a.
Proof. induction a as [|x a IH]; simpl; [reflexivity | now rewrite IH]. Qed.

Lemma concatLines_app l1 l2 :
  concatLines (l1 ++ l2)%list = concatLines l1 ++ concatLines l2.
Proof.
  induction l1 as [|t l1 IH]; simpl; [reflexivity|].
  now rewrite IH, !append_assoc.
Qed.

Lemma htmlToText_spec e n :
  htmlToText e n =
  Ret (if isTextNode n then setText e (text e ++ Data n ++ newline) else e, true).
Proof. unfold htmlToText, isTextNode. destruct (Type' n); reflexivity. Qed.

Lemma setText_same e : setText e (text e) = e.
Proof. destruct e; reflexivity. Qed.

(** Pass 2 appends the line of every text node it reaches, in order. *)
Lemma walk_htmlToText n : forall e,
  walk htmlToText n e =
  Ret (setText e (text e ++ concatLines (filter isTextNode (visited n)))).
Proof.
  induction n as [t a d attrs cs IH] using Node_ind; intros e.
  rewrite walk_unfold, htmlToText_spec.
  cbn [visited Type' Children bind snd fst].
  destruct (skippedType t) eqn:Hs.
  { simpl. now rewrite append_nil_r, setText_same. }
  cbn [filter].
  set (n := mkNode t a d attrs cs).
  assert (Hfold : forall e0,
    foldOutcome (fun e c => walk htmlToText c e) cs e0 =
    Ret (setText e0 (text e0 ++ concatLines (filter isTextNode (flat_map visited cs))))).
  { clear e. induction IH as [|c cs Hc _ IHcs]; intros e0; simpl.
    - now rewrite append_nil_r, setText_same.
    - rewrite Hc. simpl. rewrite IHcs, filter_app, concatLines_app.
      destruct e0; simpl. unfold setText; simpl. now rewrite append_assoc. }
  rewrite Hfold.
  destruct (isTextNode n); simpl.
  - destruct e; unfold setText; simpl. now rewrite !append_assoc.
  - reflexivity.
Qed.

Lemma encountered_none n :
  (forall m, In m (allNodes n) -> isTarget m = false) -> encountered n = [].
Proof.
  induction n as [t a d attrs cs IH] using Node_ind; intros H.
  cbn [encountered Type' Children].
  destruct (skippedType t); [reflexivity|].
  rewrite (H (mkNode t a d attrs cs)) by (simpl; auto).
  assert (Hcs : forall c m, In c cs -> In m (allNodes c) -> isTarget m = false).
  { intros c m Hc Hm. apply H. simpl. right. apply in_flat_map. eauto. }
  clear H. induction IH as [|c cs Hc _ IHcs]; simpl; [reflexivity|].
  rewrite Hc, IHcs; simpl; auto.
  - intros c' m Hc' Hm. apply (Hcs c' m); simpl; auto.
  - intros m Hm. apply (Hcs c m); simpl; auto.
Qed.

(** With no match to meet, pass 1 leaves the extractor as it was. *)
Lemma walk_findDivLyrics_none n e :
  (forall m, In m (allNodes n) -> isTarget m = false) ->
  walk findDivLyrics n e = Ret e.
Proof.
  intros H. now rewrite walk_findDivLyrics, encountered_none.
Qed.

Lemma isTarget_other_tag m :
  DataAtom m <> atom_Div -> isTarget m = false.
Proof.
  intros H. unfold isTarget. apply String.eqb_neq in H. now rewrite H.
Qed.

Lemma foldOutcome_keepStripped_last ms : forall e m m',
  (forall x, In x ms -> exists x', stripBoilerplate x = Ret x') ->
  stripBoilerplate m = Ret m' ->
  foldOutcome keepStripped (ms ++ [m])%list e = Ret (setNode e m').
Proof.
  induction ms as [|x ms IH]; intros e m m' Hms Hm; simpl.
  - unfold keepStripped. now rewrite Hm.
  - destruct (Hms x (or_introl eq_refl)) as [x' Hx].
    unfold keepStripped at 1. rewrite Hx. simpl.
    rewrite (IH (setNode e x') m m'); auto.
    intros y Hy. apply Hms. now right.
Qed.

Lemma Extract_located parse body r m' :
  parse body = inl r ->
  walk findDivLyrics r (setRoot (NewExtractor body) r)
  = Ret (setNode (setRoot (NewExtractor body) r) m') ->
  Extract parse (NewExtractor body)
  = Ret (concatLines (filter isTextNode (visited m'))).
Proof.
  intros Hp Hw. unfold Extract.
  change (reader (NewExtractor body)) with body. rewrite Hp, Hw.
  cbn [bind setNode node walkPtr]. rewrite walk_htmlToText. reflexivity.
Qed.

Lemma Extract_not_located parse body r :
  parse body = inl r ->
  (forall m, In m (allNodes r) -> isTarget m = false) ->
  Extract parse (NewExtractor body) = Panic.
Proof.
  intros Hp Hn. unfold Extract.
  change (reader (NewExtractor body)) with body. rewrite Hp.
  now rewrite walk_findDivLyrics_none.
Qed.

(** C10: in the locate pass only nodes whose tag is div are tested for
    [id="lyrics-root"]: on any other node [findDivLyrics] answers
    "continue" without looking at the attributes, and in a document whose
    elements carrying [id="lyrics-root"] all have another tag no container
    is located (the extractor's [node] stays nil, and the text pass then
    dereferences it). *)
Theorem findDivLyrics_only_tests_div :
  forall (parse : string -> Node + error) (body : string) (r : Node),
    parse body = inl r ->
    (forall m, In m (allNodes r) -> hasLyricsRootId m = true ->
               DataAtom m <> atom_Div) ->
    (forall e m, DataAtom m <> atom_Div -> findDivLyrics e m = Ret (e, true)) /\
    (forall e, walk findDivLyrics r e = Ret e) /\
    node (setRoot (NewExtractor body) r) = None /\
    Extract parse (NewExtractor body) = Panic.
Proof.
  intros parse body r Hp Hid.
  assert (Hn : forall m, In m (allNodes r) -> isTarget m = false).
  { intros m Hm. unfold isTarget.
    destruct (hasLyricsRootId m) eqn:Hh; [|apply andb_false_r].
    apply (Hid m Hm) in Hh. apply String.eqb_neq in Hh. now rewrite Hh. }
  repeat split.
  - intros e m Hm. rewrite findDivLyrics_spec, isTarget_other_tag; auto.
  - intros e. now apply walk_findDivLyrics_none.
  - now apply Extract_not_located with (r := r).
Qed.

Lemma findDivLyrics_only_tests_div_witness :
  parsesTo sectionDocument "" = inl sectionDocument /\
  (exists m, In m (allNodes sectionDocument) /\ hasLyricsRootId m = true) /\
  walk findDivLyrics sectionDocument (NewExtractor "") = Ret (NewExtractor "") /\
  Extract (parsesTo sectionDocument) (NewExtractor "") = Panic.
Proof.
  assert (H : forall m, In m (allNodes sectionDocument) ->
                        hasLyricsRootId m = true -> DataAtom m <> atom_Div).
  { intros m Hm Hh. simpl in Hm.
    repeat (destruct Hm as [Hm|Hm]; [subst m; try discriminate Hh|]);
      try contradiction.
    intro Hd. discriminate Hd. }
  destruct (findDivLyrics_only_tests_div (parsesTo sectionDocument) ""
              sectionDocument eq_refl H) as (_ & Hw & _ & Hx).
  split; [reflexivity|]. split.
  - exists sectionContainer.
    split; [simpl; tauto | reflexivity].
  - split; [apply Hw | exact Hx].
Defined.

(** C5: on a document in which no container is located, [Extract] does
    not return an error: the text pass is run on the nil [e.node] and
    panics on [node.Type].  The only error [Extract] returns is the
    parser's. *)
Theorem Extract_without_container_panics :
  forall (parse : string -> Node + error) (body : string) (r : Node),
    parse body = inl r ->
    (forall m, In m (allNodes r) -> isTarget m = false) ->
    Extract parse (NewExtractor body) = Panic /\
    (forall err, Extract parse (NewExtractor body) <> Err err) /\
    (forall parse' err, parse' body = inr err ->
                        Extract parse' (NewExtractor body) = Err err).
Proof.
  intros parse body r Hp Hn.
  assert (Hx := Extract_not_located parse body r Hp Hn).
  repeat split; auto.
  - intros err. rewrite Hx. discriminate.
  - intros parse' err Hp'. unfold Extract.
    change (reader (NewExtractor body)) with body. now rewrite Hp'.
Qed.

Lemma Extract_without_container_panics_witness :
  parsesTo plainDocument "<p>no lyrics here</p>" = inl plainDocument /\
  Extract (parsesTo plainDocument) (NewExtractor "<p>no lyrics here</p>") = Panic.
Proof.
  split; [reflexivity|].
  refine (proj1 (Extract_without_container_panics (parsesTo plainDocument)
                   "<p>no lyrics here</p>" plainDocument eq_refl _)).
  intros m Hm. simpl in Hm.
  repeat (destruct Hm as [Hm|Hm]; [subst m; reflexivity|]). contradiction.
Defined.

(** C2 (amended): the matches of the locate pass are the div elements
    carrying [id="lyrics-root"]; an element of another tag carrying it is
    none.  The pass does not stop at the first match: it meets the
    matches of a depth-first, pre-order traversal that goes on with the
    siblings of a match and only leaves the children of a match out, and
    each match in turn replaces the container kept before it.  When
    stripping the header and footer faults on none of the matches met,
    the container the text is extracted from is the last match met, and
    the earlier ones leave no trace.  Nothing is said of a document in
    which stripping faults on a match met. *)
Theorem locate_last_match_wins :
  forall r : Node,
    (forall e,
       match walk findDivLyrics r e,
             foldOutcome keepStripped (encountered r) e with
       | Ret e1, Ret e2 =>
           reader e1 = reader e2 /\ node e1 = node e2 /\ text e1 = text e2
       | Err x, Err y => x = y
       | Panic, Panic => True
       | _, _ => False
       end) /\
    (forall (ms : list Node) (m m' : Node),
       encountered r = (ms ++ [m])%list ->
       (forall x, In x ms -> exists x', stripBoilerplate x = Ret x') ->
       stripBoilerplate m = Ret m' ->
       (forall e, exists e',
          walk findDivLyrics r e = Ret e' /\
          node e' = Some m' /\ text e' = text e /\ reader e' = reader e) /\
       (forall parse body, parse body = inl r ->
          Extract parse (NewExtractor body)
          = Ret (concatLines (filter isTextNode (visited m'))))).
Proof.
  intros r. split.
  { intros e. rewrite walk_findDivLyrics.
    destruct (foldOutcome keepStripped (encountered r) e); auto. }
  intros ms m m' Henc Hms Hm.
  assert (Hw : forall e, walk findDivLyrics r e = Ret (setNode e m')).
  { intros e. rewrite walk_findDivLyrics, Henc.
    now apply foldOutcome_keepStripped_last. }
  split.
  - intros e. exists (setNode e m'). split; [apply Hw|]. repeat split.
  - intros parse body Hp. apply Extract_located with (r := r); auto.
Qed.

Lemma locate_last_match_wins_witness :
  encountered twoContainers =
    ([element "div" [("id", "lyrics-root")] [textNode "one"]] ++
     [element "div" [("id", "lyrics-root")]
        [textNode "two";
         element "div" [("id", "lyrics-root")] [textNode "inner"]]])%list /\
  Extract (parsesTo twoContainers) (NewExtractor "")
  = Ret ("two" ++ newline ++ "inner" ++ newline).
Proof.
  split; [reflexivity|].
  refine (proj2 (proj2 (locate_last_match_wins twoContainers)
    [element "div" [("id", "lyrics-root")] [textNode "one"]] _ _
    eq_refl _ eq_refl) (parsesTo twoContainers) "" eq_refl).
  intros x [Hx|[]]. subst x. eexists. reflexivity.
Defined.

(** C2 as stated fails.  In the first document two elements carry
    [id="lyrics-root"], the last one in document order being a section:
    the locate pass never tests it, and the text comes from the div
    before it.  In the second document two divs carry it, the first one
    without child: the pass panics on [node.FirstChild.Attr] at that
    first match, and the last match is never reached. *)
Lemma locate_last_match_counterexample :
  filter hasLyricsRootId (allNodes divThenSection)
  = [element "div" [("id", "lyrics-root")] [textNode "one"];
     element "section" [("id", "lyrics-root")] [textNode "two"]] /\
  encountered divThenSection
  = [element "div" [("id", "lyrics-root")] [textNode "one"]] /\
  Extract (parsesTo divThenSection) (NewExtractor "")
  = Ret ("one" ++ newline) /\
  Extract (parsesTo divThenSection) (NewExtractor "")
  <> Ret (textLines (element "section" [("id", "lyrics-root")] [textNode "two"])) /\
  filter hasLyricsRootId (allNodes emptyContainerFirst)
  = [element "div" [("id", "lyrics-root")] []; lyricsContainer] /\
  encountered emptyContainerFirst
  = [element "div" [("id", "lyrics-root")] []; lyricsContainer] /\
  Extract (parsesTo emptyContainerFirst) (NewExtractor "") = Panic.
Proof.
  repeat split; try reflexivity. discriminate.
Qed.

(** *** The container with its boilerplate removed *)

Lemma stripLoop_no_hit marker remove attrs cs :
  hits marker attrs = 0%nat -> stripLoop marker remove attrs cs = Ret cs.
Proof.
  unfold hits. induction attrs as [|a attrs IH]; simpl; [reflexivity|].
  destruct (Contains (Val a) marker); simpl; [discriminate | exact IH].
Qed.

Lemma stripLoop_one_hit marker remove attrs cs :
  (hits marker attrs <= 1)%nat ->
  stripLoop marker remove attrs cs =
  if existsb (fun a => Contains (Val a) marker) attrs then remove cs else Ret cs.
Proof.
  unfold hits. induction attrs as [|a attrs IH]; simpl; [reflexivity|].
  destruct (Contains (Val a) marker) eqn:Ha; simpl; intros Hle.
  - destruct (remove cs) as [cs'| |]; simpl; try reflexivity.
    apply stripLoop_no_hit. unfold hits. lia.
  - now apply IH.
Qed.

Lemma stripBoilerplate_strippable c :
  strippable c -> stripBoilerplate c = Ret (specStripped c).
Proof.
  unfold strippable, stripBoilerplate, specStripped, FirstChild, LastChild.
  destruct c as [t a d attrs cs]; cbn [Children setChildren Type' DataAtom Data Attr].
  destruct cs as [|first rest]; [contradiction|].
  intros [Hh Hf]. cbn [hd_error].
  rewrite stripLoop_one_hit by exact Hh.
  cbn [withoutHeader] in *.
  destruct (existsb (fun a => Contains (Val a) "LyricsHeader") (Attr first));
    cbn [removeFirstChild bind].
  - destruct rest as [|k ks]; [contradiction|].
    rewrite stripLoop_one_hit by exact Hf. cbn [withoutFooter].
    destruct (existsb _ (Attr (last ks k))); reflexivity.
  - rewrite stripLoop_one_hit by exact Hf. cbn [withoutFooter].
    destruct (existsb _ (Attr (last rest first))); reflexivity.
Qed.

(** *** A single container is the one the locate pass meets *)

Lemma allNodes_trans n : forall c m,
  In c (allNodes n) -> In m (allNodes c) -> In m (allNodes n).
Proof.
  induction n as [t a d attrs cs IH] using Node_ind; intros c m Hc Hm.
  cbn [allNodes Children] in Hc. destruct Hc as [Hc|Hc]; [now subst c|].
  cbn [allNodes Children]. right.
  apply in_flat_map in Hc. destruct Hc as (k & Hk & Hc).
  apply in_flat_map. exists k. split; [exact Hk|].
  rewrite Forall_forall in IH. exact (IH k Hk c m Hc Hm).
Qed.

Lemma leavesClosed_sub n c :
  leavesClosed n -> In c (allNodes n) -> leavesClosed c.
Proof.
  intros Hn Hc m Hm. apply Hn. exact (allNodes_trans n c m Hc Hm).
Qed.

Lemma child_in_allNodes n k : In k (Children n) -> In k (allNodes n).
Proof.
  intros Hk. destruct n as [t a d attrs cs]. cbn [allNodes Children] in *.
  right. apply in_flat_map. exists k. split; [exact Hk|].
  destruct k; simpl; auto.
Qed.

Lemma no_id_no_target l :
  filter hasLyricsRootId l = [] -> forall m, In m l -> isTarget m = false.
Proof.
  intros Hf m Hm. unfold isTarget.
  destruct (hasLyricsRootId m) eqn:Hh; [|apply andb_false_r].
  assert (In m (filter hasLyricsRootId l)) by (apply filter_In; auto).
  rewrite Hf in H. contradiction.
Qed.

Lemma flat_map_encountered_none cs :
  filter hasLyricsRootId (flat_map allNodes cs) = [] ->
  flat_map encountered cs = [].
Proof.
  induction cs as [|k cs IH]; simpl; [reflexivity|].
  rewrite filter_app. intros H. apply app_eq_nil in H. destruct H as [Hk Hcs].
  rewrite (encountered_none k (no_id_no_target _ Hk)). simpl. now apply IH.
Qed.

Lemma Node_children_ind (P : Node -> Prop) :
  (forall n, Forall P (Children n) -> P n) -> forall n, P n.
Proof.
  intros H n. induction n as [t a d attrs cs IH] using Node_ind.
  apply H. exact IH.
Qed.

Lemma allNodes_eq n : allNodes n = n :: flat_map allNodes (Children n).
Proof. destruct n; reflexivity. Qed.

Lemma visited_eq n :
  visited n =
  if skippedType (Type' n) then [] else n :: flat_map visited (Children n).
Proof. destruct n; reflexivity. Qed.

Lemma encountered_eq n :
  encountered n =
  if skippedType (Type' n) then []
  else if isTarget n then [n] else flat_map encountered (Children n).
Proof. destruct n; reflexivity. Qed.

Lemma leavesClosed_children n :
  leavesClosed n -> forall k, In k (Children n) -> leavesClosed k.
Proof.
  intros Hl k Hk. apply (leavesClosed_sub n k Hl).
  apply (child_in_allNodes n k). exact Hk.
Qed.

Lemma leavesClosed_skipped n :
  leavesClosed n -> skippedType (Type' n) = true -> Children n = [].
Proof.
  intros Hl Hs. apply (Hl n); [|exact Hs]. rewrite allNodes_eq. now left.
Qed.

Lemma encountered_single n : forall c,
  leavesClosed n ->
  filter hasLyricsRootId (allNodes n) = [c] ->
  DataAtom c = atom_Div ->
  skippedType (Type' c) = false ->
  encountered n = [c].
Proof.
  induction n as [n IH] using Node_children_ind; intros c Hl Hf Hdiv Hsk.
  rewrite encountered_eq. rewrite allNodes_eq in Hf. cbn [filter] in Hf.
  destruct (skippedType (Type' n)) eqn:Ht.
  { rewrite (leavesClosed_skipped n Hl Ht) in Hf. simpl in Hf.
    destruct (hasLyricsRootId n); [|discriminate].
    injection Hf as Hf. subst c. congruence. }
  destruct (hasLyricsRootId n) eqn:Hh.
  { injection Hf as Hc Hrest. subst c. unfold isTarget.
    rewrite Hdiv, String.eqb_refl, Hh. reflexivity. }
  unfold isTarget. rewrite Hh, andb_false_r.
  assert (Hlk := leavesClosed_children n Hl).
  clear Hl Hh Ht. revert Hf Hlk.
  induction IH as [|k cs Hk _ IHcs]; simpl; intros Hf Hlk; [discriminate|].
  rewrite filter_app in Hf. apply app_eq_unit in Hf.
  destruct Hf as [[Hk0 Hrest]|[Hk1 Hrest]].
  - rewrite (encountered_none k (no_id_no_target _ Hk0)). simpl.
    apply IHcs; auto.
  - rewrite (Hk c) by auto.
    now rewrite (flat_map_encountered_none cs Hrest).
Qed.

(** *** The text pass reaches every text node of a parsed subtree *)

Lemma text_visited_all n :
  leavesClosed n ->
  filter isTextNode (visited n) = filter isTextNode (allNodes n).
Proof.
  induction n as [n IH] using Node_children_ind; intros Hl.
  assert (Hlk := leavesClosed_children n Hl).
  rewrite visited_eq, allNodes_eq.
  destruct (skippedType (Type' n)) eqn:Ht.
  { rewrite (leavesClosed_skipped n Hl Ht). simpl. unfold isTextNode.
    destruct (Type' n); try discriminate Ht; reflexivity. }
  cbn [filter].
  assert (Hcs : filter isTextNode (flat_map visited (Children n))
                = filter isTextNode (flat_map allNodes (Children n))).
  { clear Hl Ht. induction IH as [|k cs Hk _ IHcs]; simpl; [reflexivity|].
    rewrite !filter_app, Hk, IHcs; auto.
    - intros k' Hk'. apply Hlk. now right.
    - apply Hlk. now left. }
  now rewrite Hcs.
Qed.

Lemma withoutHeader_incl cs x : In x (withoutHeader cs) -> In x cs.
Proof.
  destruct cs as [|first rest]; simpl; [auto|].
  destruct (existsb _ (Attr first)); simpl; auto.
Qed.

Lemma removelast_incl (cs : list Node) x : In x (removelast cs) -> In x cs.
Proof.
  induction cs as [|c cs IH]; simpl; [auto|].
  destruct cs as [|c' cs']; [contradiction|].
  intros [H|H]; [now left | right; now apply IH].
Qed.

Lemma withoutFooter_incl cs x : In x (withoutFooter cs) -> In x cs.
Proof.
  unfold withoutFooter. destruct cs as [|c cs']; [auto|].
  destruct (existsb _ (Attr (last cs' c))); [apply removelast_incl | auto].
Qed.

Lemma leavesClosed_specStripped c :
  skippedType (Type' c) = false -> leavesClosed c -> leavesClosed (specStripped c).
Proof.
  intros Hsk Hl m Hm Hs. unfold specStripped in Hm.
  destruct c as [t a d attrs cs]. cbn [allNodes Children setChildren] in Hm.
  cbn [Type' DataAtom Data Attr Children] in *.
  destruct Hm as [Hm|Hm].
  - subst m. simpl in Hs. congruence.
  - apply (Hl m); [|exact Hs]. cbn [allNodes Children]. right.
    apply in_flat_map in Hm. destruct Hm as (k & Hk & Hm).
    apply in_flat_map. exists k. split; [|exact Hm].
    apply withoutHeader_incl, withoutFooter_incl. exact Hk.
Qed.

(** C1 (amended): when exactly one node of a parsed document carries
    [id="lyrics-root"], that node is a div element, and its children let
    both stripping loops run (a first child with at most one attribute
    value containing "LyricsHeader" and, once the header is removed, a last
    child with at most one attribute value containing "Footer"), [Extract]
    returns the payloads of the text nodes under the container, in
    document order, each followed by a newline, the first child being left
    out when one of its attribute values contains "LyricsHeader" and the
    last child when one of its attribute values contains "Footer";
    [GetLyrics] returns that text trimmed, less a final "Embed". *)
Theorem extraction_single_div_container :
  forall (parse : string -> Node + error) (body : string) (r c : Node),
    parse body = inl r ->
    leavesClosed r ->
    filter hasLyricsRootId (allNodes r) = [c] ->
    Type' c = ElementNode ->
    DataAtom c = atom_Div ->
    strippable c ->
    Extract parse (NewExtractor body) = Ret (textLines (specStripped c)) /\
    GetLyrics parse (inl body) = Ret (trimEmbed (textLines (specStripped c))).
Proof.
  intros parse body r c Hp Hl Hf Hel Hdiv Hs.
  assert (Hsk : skippedType (Type' c) = false) by now rewrite Hel.
  assert (Hin : In c (allNodes r)).
  { assert (H : In c (filter hasLyricsRootId (allNodes r)))
      by (rewrite Hf; now left).
    apply filter_In in H. tauto. }
  assert (Hx : Extract parse (NewExtractor body)
               = Ret (textLines (specStripped c))).
  { unfold textLines.
    rewrite <- text_visited_all
      by (apply leavesClosed_specStripped; [exact Hsk|];
          exact (leavesClosed_sub r c Hl Hin)).
    apply Extract_located with (r := r); [exact Hp|].
    rewrite walk_findDivLyrics, (encountered_single r c Hl Hf Hdiv Hsk).
    cbn [foldOutcome]. unfold keepStripped.
    now rewrite (stripBoilerplate_strippable c Hs). }
  split; [exact Hx|].
  unfold GetLyrics. now rewrite Hx.
Qed.

Lemma leavesClosed_lyricsPage : leavesClosed lyricsPage.
Proof.
  intros m Hm. simpl in Hm.
  repeat (destruct Hm as [Hm|Hm]; [subst m; simpl; intros H;
                                   first [discriminate H | reflexivity]|]).
  contradiction.
Qed.

Lemma strippable_lyricsContainer : strippable lyricsContainer.
Proof. split; vm_compute; lia. Qed.

Lemma extraction_single_div_container_witness :
  filter hasLyricsRootId (allNodes lyricsPage) = [lyricsContainer] /\
  Extract (parsesTo lyricsPage) (NewExtractor "")
  = Ret ("la" ++ newline ++ "li" ++ newline) /\
  GetLyrics (parsesTo lyricsPage) (inl "") = Ret ("la" ++ newline ++ "li").
Proof.
  split; [reflexivity|].
  exact (extraction_single_div_container (parsesTo lyricsPage) "" lyricsPage
           lyricsContainer eq_refl leavesClosed_lyricsPage eq_refl eq_refl
           eq_refl strippable_lyricsContainer).
Defined.

(** C1 as stated fails: the only element carrying [id="lyrics-root"] of
    this document is a section, which the locate pass never tests; no text
    is returned, the text pass panics on the nil container. *)
Lemma extraction_single_container_counterexample :
  filter hasLyricsRootId (allNodes sectionDocument) = [sectionContainer] /\
  Type' sectionContainer = ElementNode /\
  strippable sectionContainer /\
  textLines (specStripped sectionContainer) = "la" ++ newline /\
  Extract (parsesTo sectionDocument) (NewExtractor "") = Panic /\
  Extract (parsesTo sectionDocument) (NewExtractor "")
  <> Ret (textLines (specStripped sectionContainer)) /\
  GetLyrics (parsesTo sectionDocument) (inl "")
  <> Ret (TrimSpace (textLines (specStripped sectionContainer))).
Proof.
  repeat split; try reflexivity; try (vm_compute; lia); discriminate.
Qed.

(** *** The end of [GetLyrics] *)

Lemma length_append (a b : string) : length (a ++ b) = (length a + length b)%nat.
Proof. induction a as [|x a IH]; simpl; [reflexivity | now rewrite IH]. Qed.

Lemma substring_prefix (a b : string) : substring 0 (length a) (a ++ b) = a.
Proof.
  induction a as [|x a IH]; simpl.
  - destruct b; reflexivity.
  - now rewrite IH.
Qed.

Lemma substring_whole (b : string) : substring 0 (length b) b = b.
Proof. rewrite <- (append_nil_r b) at 2. apply substring_prefix. Qed.

Lemma substring_suffix (a b : string) :
  substring (length a) (length b) (a ++ b) = b.
Proof.
  induction a as [|x a IH]; simpl; [apply substring_whole | exact IH].
Qed.

Lemma substring_split (s : string) : forall n,
  (n <= length s)%nat ->
  s = substring 0 n s ++ substring n (length s - n) s.
Proof.
  induction s as [|x s IH]; intros n Hn; simpl in *.
  - destruct n; [reflexivity | lia].
  - destruct n as [|n]; simpl.
    + now rewrite substring_whole.
    + f_equal. apply IH. lia.
Qed.

Lemma HasSuffix_append (p suffix : string) : HasSuffix (p ++ suffix) suffix = true.
Proof.
  unfold HasSuffix. rewrite length_append.
  replace (length p + length suffix - length suffix)%nat with (length p) by lia.
  rewrite substring_suffix, String.eqb_refl, andb_true_r.
  apply Nat.leb_le. lia.
Qed.

Lemma CutSuffix_append (p suffix : string) :
  CutSuffix (p ++ suffix) suffix = (p, true).
Proof.
  unfold CutSuffix. rewrite HasSuffix_append, length_append.
  replace (length p + length suffix - length suffix)%nat with (length p) by lia.
  now rewrite substring_prefix.
Qed.

Lemma HasSuffix_true (s suffix : string) :
  HasSuffix s suffix = true -> exists p, s = p ++ suffix.
Proof.
  unfold HasSuffix. intros H. apply andb_true_iff in H. destruct H as [Hle He].
  apply Nat.leb_le in Hle. apply String.eqb_eq in He.
  exists (substring 0 (length s - length suffix) s).
  assert (H := substring_split s (length s - length suffix)).
  replace (length s - (length s - length suffix))%nat with (length suffix) in H
    by lia.
  rewrite He in H. apply H. lia.
Qed.

Lemma Embedded_not_Embed (p : string) : HasSuffix (p ++ "Embedded") "Embed" = false.
Proof.
  unfold HasSuffix.
  replace (p ++ "Embedded") with ((p ++ "Emb") ++ "edded")
    by (rewrite append_assoc; reflexivity).
  rewrite length_append.
  replace (length (p ++ "Emb") + length "edded" - length "Embed")%nat
    with (length (p ++ "Emb")) by (simpl; lia).
  change (length "Embed") with (length "edded").
  rewrite substring_suffix. apply andb_false_r.
Qed.

Lemma cutPrefix_Some p : forall s r, cutPrefix p s = Some r -> s = p ++ r.
Proof.
  induction p as [|a p IH]; intros s r H; simpl in *.
  - now injection H as <-.
  - destruct s as [|b s]; [discriminate|].
    destruct (Ascii.eqb_spec a b) as [<-|_]; [|discriminate].
    simpl. f_equal. now apply IH.
Qed.

Lemma cutSpace_Some encs s r :
  cutSpace encs s = Some r -> exists p, s = p ++ r.
Proof.
  unfold cutSpace. induction encs as [|enc encs IH]; simpl; [discriminate|].
  destruct (cutPrefix enc s) as [r'|] eqn:Hc; [|exact IH].
  intros H. injection H as <-. exists enc. now apply cutPrefix_Some.
Qed.

Lemma trimLeftSpaces_suffix encs fuel : forall s,
  exists a, s = a ++ trimLeftSpaces encs fuel s.
Proof.
  induction fuel as [|fuel IH]; intros s; simpl; [now exists ""|].
  destruct (cutSpace encs s) as [r|] eqn:Hc; [|now exists ""].
  destruct (cutSpace_Some encs s r Hc) as [p Hp].
  destruct (IH r) as [a Ha].
  exists (p ++ a). rewrite append_assoc, <- Ha. exact Hp.
Qed.

Lemma rev_string_app a b : rev_string (a ++ b) = rev_string b ++ rev_string a.
Proof.
  induction a as [|x a IH]; simpl; [now rewrite append_nil_r|].
  now rewrite IH, append_assoc.
Qed.

Lemma rev_string_involutive s : rev_string (rev_string s) = s.
Proof.
  induction s as [|x s IH]; simpl; [reflexivity|].
  rewrite rev_string_app, IH. reflexivity.
Qed.

(** Trimming keeps a segment of the text and touches nothing inside it. *)
Lemma TrimSpace_segment s : exists a b, s = a ++ TrimSpace s ++ b.
Proof.
  unfold TrimSpace.
  destruct (trimLeftSpaces_suffix spaceEncodings (length s) s) as [a Ha].
  set (l := trimLeftSpaces spaceEncodings (length s) s) in *.
  destruct (trimLeftSpaces_suffix (map rev_string spaceEncodings) (length l)
              (rev_string l)) as [b Hb].
  set (t := trimLeftSpaces (map rev_string spaceEncodings) (length l)
              (rev_string l)) in *.
  exists a, (rev_string b).
  rewrite <- rev_string_app, <- Hb, rev_string_involutive. exact Ha.
Qed.

(** C9: the text is trimmed first; then the suffix "Embed" is removed
    exactly when the trimmed text ends with it, and nothing else changes:
    without that suffix (as for a text ending in "Embedded") the trimmed
    text is returned as it is, and the trimmed text is a segment of the
    accumulated text.  [GetLyrics] returns the result. *)
Theorem trimEmbed_exact_suffix :
  forall lyrics : string,
    (forall p, TrimSpace lyrics = p ++ "Embed" -> trimEmbed lyrics = p) /\
    ((forall p, TrimSpace lyrics <> p ++ "Embed") ->
     trimEmbed lyrics = TrimSpace lyrics) /\
    (forall p, TrimSpace lyrics = p ++ "Embedded" ->
               trimEmbed lyrics = p ++ "Embedded") /\
    (exists a b, lyrics = a ++ TrimSpace lyrics ++ b) /\
    (forall parse body,
       Extract parse (NewExtractor body) = Ret lyrics ->
       GetLyrics parse (inl body) = Ret (trimEmbed lyrics)).
Proof.
  intros lyrics. unfold trimEmbed. repeat split.
  - intros p Hp. cbv zeta. rewrite Hp, HasSuffix_append, CutSuffix_append.
    reflexivity.
  - intros Hno. cbv zeta.
    destruct (HasSuffix (TrimSpace lyrics) "Embed") eqn:Hs; [|reflexivity].
    apply HasSuffix_true in Hs. destruct Hs as [p Hp]. now apply Hno in Hp.
  - intros p Hp. cbv zeta. now rewrite Hp, Embedded_not_Embed.
  - apply TrimSpace_segment.
  - intros parse body Hx. unfold GetLyrics. now rewrite Hx.
Qed.

Lemma trimEmbed_exact_suffix_witness :
  trimEmbed (" la" ++ newline ++ "li3Embed" ++ newline) = "la" ++ newline ++ "li3" /\
  trimEmbed (" so Embedded" ++ newline) = "so Embedded".
Proof.
  split.
  - exact (proj1 (trimEmbed_exact_suffix (" la" ++ newline ++ "li3Embed" ++ newline))
             ("la" ++ newline ++ "li3") eq_refl).
  - exact (proj1 (proj2 (proj2 (trimEmbed_exact_suffix (" so Embedded" ++ newline))))
             "so " eq_refl).
Defined.

(* ================================================================== *)
(** * Properties of the request executor *)

Lemma wrap64_small z : (- 2 ^ 63 <= z < 2 ^ 63)%Z -> wrap64 z = z.
Proof.
  intros H. unfold wrap64. rewrite Z.mod_small; lia.
Qed.

Lemma sentRequests_app t1 t2 :
  sentRequests (t1 ++ t2)%list = (sentRequests t1 ++ sentRequests t2)%list.
Proof. unfold sentRequests. apply flat_map_app. Qed.

Lemma sleeps_app t1 t2 : sleeps (t1 ++ t2)%list = (sleeps t1 ++ sleeps t2)%list.
Proof. unfold sleeps. apply flat_map_app. Qed.

Lemma sentRequests_rounds req resps :
  sentRequests (rounds req resps) = repeat req (List.length resps).
Proof.
  induction resps as [|r resps IH]; simpl; [reflexivity | now rewrite IH].
Qed.

Lemma sleeps_rounds req resps :
  sleeps (rounds req resps) = map retryDuration resps.
Proof.
  induction resps as [|r resps IH]; simpl; [reflexivity | now rewrite IH].
Qed.

(** Rate-limited answers are absorbed one after the other, whatever their
    number. *)
Lemma doRequestLoop_throttled Do req resps : forall fuel attempt trace,
  (forall k resp, nth_error resps k = Some resp ->
                  Do (attempt + k)%nat req = inl resp /\ throttled resp = true) ->
  doRequestLoop Do req (List.length resps + fuel) attempt trace =
  doRequestLoop Do req fuel (attempt + List.length resps)
    (trace ++ rounds req resps)%list.
Proof.
  induction resps as [|r resps IH]; intros fuel attempt trace H.
  - simpl. now rewrite Nat.add_0_r, app_nil_r.
  - destruct (H 0%nat r eq_refl) as [Hdo Hth].
    rewrite Nat.add_0_r in Hdo. unfold throttled in Hth.
    cbn [List.length Nat.add doRequestLoop]. rewrite Hdo, Hth.
    rewrite IH.
    + cbn [rounds flat_map]. fold (rounds req resps).
      rewrite <- !app_assoc. cbn [app]. f_equal. lia.
    + intros k resp Hk.
      replace (S attempt + k)%nat with (attempt + S k)%nat by lia.
      apply (H (S k)). exact Hk.
Qed.

Lemma doRequestLoop_still_running Do req resps : forall fuel attempt trace,
  (forall k resp, nth_error resps k = Some resp ->
                  Do (attempt + k)%nat req = inl resp /\ throttled resp = true) ->
  (fuel <= List.length resps)%nat ->
  doRequestLoop Do req fuel attempt trace = None.
Proof.
  induction resps as [|r resps IH]; intros fuel attempt trace H Hle.
  - simpl in Hle. assert (fuel = 0%nat) by lia. subst. reflexivity.
  - destruct fuel as [|fuel]; [reflexivity|].
    destruct (H 0%nat r eq_refl) as [Hdo Hth].
    rewrite Nat.add_0_r in Hdo. unfold throttled in Hth.
    cbn [doRequestLoop]. rewrite Hdo, Hth. apply IH.
    + intros k resp Hk.
      replace (S attempt + k)%nat with (attempt + S k)%nat by lia.
      apply (H (S k)). exact Hk.
    + simpl in Hle. lia.
Qed.

(** The state of the call when the first answer that is not rate-limited
    is about to be handled. *)
Lemma doRequest_after_throttled token Do req resps fuel :
  throttledFirst Do (authorize token req) resps ->
  doRequest token Do req (List.length resps + S fuel) =
  doRequestLoop Do (authorize token req) (S fuel) (List.length resps)
    (rounds (authorize token req) resps).
Proof.
  intros H. unfold doRequest.
  rewrite doRequestLoop_throttled by exact H. reflexivity.
Qed.

Lemma returnsAfter_intro token Do req resps fuel out :
  (List.length resps < fuel)%nat ->
  throttledFirst Do (authorize token req) resps ->
  (forall trace,
     doRequestLoop Do (authorize token req) (S (fuel - S (List.length resps)))
       (List.length resps) trace
     = Some (out, (trace ++ [Sent (authorize token req)])%list)) ->
  returnsAfter token Do req fuel out (S (List.length resps)).
Proof.
  intros Hlt Hth Hlast.
  exists (rounds (authorize token req) resps ++ [Sent (authorize token req)])%list.
  split.
  - replace fuel with (List.length resps + S (fuel - S (List.length resps)))%nat
      at 1 by lia.
    rewrite doRequest_after_throttled by exact Hth. apply Hlast.
  - rewrite sentRequests_app, sentRequests_rounds. simpl.
    now rewrite <- repeat_cons.
Qed.

(** C6: what the executor returns is decided by the first answer that is
    not rate-limited.  An error of the transport (of [Do], or of reading
    the body) is returned at once; a 200 returns the body; any other
    status that is neither 429 nor 1015 returns the body as the error;
    none of these is retried.  Answers with status 429 or 1015 never
    reach the caller: whatever their number, the same request is sent
    again after each of them, and while they last the call does not
    return. *)
Theorem doRequest_decided_by_status :
  forall (token : string) (Do : nat -> HTTPRequest -> HTTPResponse + error)
         (req : HTTPRequest) (resps : list HTTPResponse) (fuel : nat),
    throttledFirst Do (authorize token req) resps ->
    (List.length resps < fuel)%nat ->
    let n := List.length resps in
    let last := Do n (authorize token req) in
    (forall fuel', (fuel' <= n)%nat -> doRequest token Do req fuel' = None) /\
    (forall err, last = inr err ->
       returnsAfter token Do req fuel (Err err) (S n)) /\
    (forall resp err, last = inl resp -> throttled resp = false ->
       Body resp = inr err ->
       returnsAfter token Do req fuel (Err err) (S n)) /\
    (forall resp body, last = inl resp -> throttled resp = false ->
       StatusCode resp <> 200%Z -> Body resp = inl body ->
       returnsAfter token Do req fuel (Err (errorString body)) (S n)) /\
    (forall resp body, last = inl resp -> StatusCode resp = 200%Z ->
       Body resp = inl body ->
       returnsAfter token Do req fuel (Ret body) (S n)).
Proof.
  intros token Do req resps fuel Hth Hlt n last. subst n last.
  split; [|repeat split].
  - intros fuel' Hle. unfold doRequest.
    apply doRequestLoop_still_running with (resps := resps); auto.
  - intros err Hlast. apply returnsAfter_intro; auto.
    intros trace. cbn [doRequestLoop]. now rewrite Hlast.
  - intros resp err Hlast Hnt Hbody. apply returnsAfter_intro; auto.
    intros trace. cbn [doRequestLoop]. unfold throttled in Hnt.
    now rewrite Hlast, Hnt, Hbody.
  - intros resp body Hlast Hnt Hst Hbody. apply returnsAfter_intro; auto.
    intros trace. cbn [doRequestLoop]. unfold throttled in Hnt.
    rewrite Hlast, Hnt, Hbody.
    apply Z.eqb_neq in Hst. now rewrite Hst.
  - intros resp body Hlast Hst Hbody. apply returnsAfter_intro; auto.
    intros trace. cbn [doRequestLoop].
    rewrite Hlast, Hbody, Hst. reflexivity.
Qed.

Lemma throttledFirst_flaky token :
  throttledFirst flakyTransport (authorize token accountRequest) flakyResponses.
Proof.
  intros k resp Hk. destruct k as [|[|k]]; simpl in Hk.
  - injection Hk as <-. split; reflexivity.
  - injection Hk as <-. split; reflexivity.
  - destruct k; discriminate Hk.
Qed.

Lemma doRequest_decided_by_status_witness :
  throttledFirst flakyTransport (authorize "token" accountRequest) flakyResponses /\
  (List.length flakyResponses < 3)%nat /\
  returnsAfter "token" flakyTransport accountRequest 3
    (Err (errorString "boom")) 3.
Proof.
  split; [apply throttledFirst_flaky|]. split; [simpl; lia|].
  refine (proj1 (proj2 (proj2 (proj2
    (doRequest_decided_by_status "token" flakyTransport accountRequest
       flakyResponses 3 (throttledFirst_flaky "token") _))))
    (mkHTTPResponse 500 "" (inl "boom")) "boom" eq_refl eq_refl _ eq_refl).
  - simpl; lia.
  - discriminate.
Defined.

(** *** The wait before a retry *)

Lemma digit_byte (k : nat) :
  (k < 10)%nat ->
  isDigit (byte (48 + k)) = true /\ digitVal (byte (48 + k)) = Z.of_nat k.
Proof.
  intros Hk.
  do 10 (destruct k as [|k]; [split; reflexivity|]). lia.
Qed.

Lemma isDigit_not_sign (c : ascii) :
  isDigit c = true -> Ascii.eqb c "+" = false /\ Ascii.eqb c "-" = false.
Proof.
  destruct c as [[] [] [] [] [] [] [] []]; intros H;
    first [discriminate H | split; reflexivity].
Qed.

Lemma parseDigits_digitsOf fuel : forall n acc,
  (0 <= n < 10 ^ Z.of_nat fuel)%Z ->
  parseDigits (digitsOf fuel n acc) 0 = parseDigits acc n.
Proof.
  induction fuel as [|fuel IH]; intros n acc Hn.
  - simpl in *. replace n with 0%Z by lia. reflexivity.
  - cbn [digitsOf].
    assert (Hm : (0 <= n mod 10 < 10)%Z) by (apply Z.mod_pos_bound; lia).
    destruct (digit_byte (Z.to_nat (n mod 10))) as [Hd Hv]; [lia|].
    rewrite Z2Nat.id in Hv by lia.
    assert (Hstep : forall a,
      parseDigits (String (byte (48 + Z.to_nat (n mod 10))) acc) a
      = parseDigits acc (10 * a + n mod 10)).
    { intros a. cbn [parseDigits]. now rewrite Hd, Hv. }
    destruct (n / 10 =? 0)%Z eqn:Hq.
    + apply Z.eqb_eq in Hq. rewrite Hstep. f_equal.
      rewrite (Z.div_mod n 10) at 2 by lia. lia.
    + apply Z.eqb_neq in Hq. rewrite IH.
      * rewrite Hstep. f_equal. rewrite (Z.div_mod n 10) at 3 by lia. lia.
      * rewrite Nat2Z.inj_succ, Z.pow_succ_r in Hn by lia.
        split; [apply Z.div_pos; lia|].
        apply Z.div_lt_upper_bound; lia.
Qed.

Lemma digitsOf_head fuel : forall n acc,
  (0 <= n)%Z ->
  exists c s, digitsOf (S fuel) n acc = String c s /\ isDigit c = true.
Proof.
  induction fuel as [|fuel IH]; intros n acc Hn.
  - cbn [digitsOf].
    assert (Hm : (0 <= n mod 10 < 10)%Z) by (apply Z.mod_pos_bound; lia).
    destruct (digit_byte (Z.to_nat (n mod 10))) as [Hd _]; [lia|].
    destruct (n / 10 =? 0)%Z; eauto.
  - change (digitsOf (S (S fuel)) n acc) with
      (let acc' := String (byte (48 + Z.to_nat (n mod 10))) acc in
       if (n / 10 =? 0)%Z then acc' else digitsOf (S fuel) (n / 10) acc').
    cbv zeta.
    assert (Hm : (0 <= n mod 10 < 10)%Z) by (apply Z.mod_pos_bound; lia).
    destruct (digit_byte (Z.to_nat (n mod 10))) as [Hd _]; [lia|].
    destruct (n / 10 =? 0)%Z; [eauto|].
    apply IH. apply Z.div_pos; lia.
Qed.

Lemma ParseInt_digits n :
  (0 <= n <= 2 ^ 31)%Z ->
  exists c s, digitsOf 20 n "" = String c s /\ isDigit c = true /\
              parseDigits (String c s) 0 = Some n.
Proof.
  intros Hn. destruct (digitsOf_head 19 n "") as (c & s & Hcs & Hc); [lia|].
  exists c, s. repeat split; auto.
  rewrite <- Hcs, parseDigits_digitsOf; [reflexivity|].
  change (10 ^ Z.of_nat 20)%Z with 100000000000000000000%Z.
  change (2 ^ 31)%Z with 2147483648%Z in Hn. lia.
Qed.

(** Reading back what [Itoa] writes, within the 32-bit range. *)
Lemma ParseInt_Itoa z :
  (- 2 ^ 31 <= z <= 2 ^ 31 - 1)%Z -> ParseInt10_32 (Itoa z) = Some z.
Proof.
  intros Hz. unfold Itoa. destruct (z <? 0)%Z eqn:Hneg.
  - apply Z.ltb_lt in Hneg.
    destruct (ParseInt_digits (- z)) as (c & s & Hcs & Hc & Hp); [lia|].
    rewrite Hcs. unfold ParseInt10_32.
    change (Ascii.eqb "-" "-") with true. change (Ascii.eqb "-" "+") with false.
    cbn [orb]. rewrite Hp. rewrite Z.opp_involutive.
    destruct (Z.leb_spec (- 2 ^ 31) z); [|lia].
    destruct (Z.leb_spec z (2 ^ 31 - 1)); [reflexivity | lia].
  - apply Z.ltb_ge in Hneg.
    destruct (ParseInt_digits z) as (c & s & Hcs & Hc & Hp); [lia|].
    rewrite Hcs. unfold ParseInt10_32.
    destruct (isDigit_not_sign c Hc) as [Hplus Hminus].
    rewrite Hplus, Hminus. cbn [orb]. rewrite Hp.
    destruct (Z.leb_spec (- 2 ^ 31) z); [|lia].
    destruct (Z.leb_spec z (2 ^ 31 - 1)); [reflexivity | lia].
Qed.

Lemma ParseInt_range s z :
  ParseInt10_32 s = Some z -> (- 2 ^ 31 <= z <= 2 ^ 31 - 1)%Z.
Proof.
  unfold ParseInt10_32. destruct s as [|c s]; [discriminate|].
  destruct (if (Ascii.eqb c "+" || Ascii.eqb c "-")%bool then s else String c s);
    [discriminate|].
  destruct (parseDigits _ 0) as [u|]; [|discriminate].
  destruct (Z.leb_spec (- 2 ^ 31) (if Ascii.eqb c "-" then (- u)%Z else u));
    [|discriminate].
  destruct (Z.leb_spec (if Ascii.eqb c "-" then (- u)%Z else u) (2 ^ 31 - 1));
    [|discriminate].
  simpl. intros Hs. injection Hs as <-. lia.
Qed.

Lemma retryDuration_parsed resp z :
  ParseInt10_32 (RetryAfter resp) = Some z ->
  retryDuration resp = (z * Second)%Z.
Proof.
  intros Hp. unfold retryDuration.
  destruct (String.eqb_spec (RetryAfter resp) "") as [He|_].
  - rewrite He in Hp. discriminate Hp.
  - rewrite Hp. apply ParseInt_range in Hp. unfold int_mul, Second.
    apply wrap64_small.
    change (2 ^ 31)%Z with 2147483648%Z in Hp.
    change (2 ^ 63)%Z with 9223372036854775808%Z. lia.
Qed.

Lemma doRequestLoop_settles Do req fuel attempt trace :
  match Do attempt req with
  | inl resp => throttled resp = false
  | inr _ => True
  end ->
  exists out,
    doRequestLoop Do req (S fuel) attempt trace
    = Some (out, (trace ++ [Sent req])%list).
Proof.
  cbn [doRequestLoop]. destruct (Do attempt req) as [resp|err]; [|eauto].
  unfold throttled. intros ->.
  destruct (Body resp); [|eauto].
  destruct (negb (StatusCode resp =? 200)%Z); eauto.
Qed.

(** C7: before each retry the executor sleeps for [retryDuration] of the
    rate-limited response it has just received: 5 seconds when the
    [Retry-After] header is absent, 5 seconds when [strconv.ParseInt]
    (base 10, 32 bits) rejects its value, and otherwise the number of
    seconds the value denotes; in particular [z] seconds when the value
    is the decimal form of a 32-bit integer [z]. *)
Theorem retry_wait_from_header :
  forall (token : string) (Do : nat -> HTTPRequest -> HTTPResponse + error)
         (req : HTTPRequest) (resps : list HTTPResponse) (fuel : nat),
    throttledFirst Do (authorize token req) resps ->
    match Do (List.length resps) (authorize token req) with
    | inl resp => throttled resp = false
    | inr _ => True
    end ->
    (List.length resps < fuel)%nat ->
    (exists out trace,
       doRequest token Do req fuel = Some (out, trace) /\
       sleeps trace = map retryDuration resps) /\
    (forall resp,
       (RetryAfter resp = "" -> retryDuration resp = (5 * Second)%Z) /\
       (ParseInt10_32 (RetryAfter resp) = None ->
        retryDuration resp = (5 * Second)%Z) /\
       (forall z, ParseInt10_32 (RetryAfter resp) = Some z ->
                  retryDuration resp = (z * Second)%Z) /\
       (forall z, (- 2 ^ 31 <= z <= 2 ^ 31 - 1)%Z ->
                  RetryAfter resp = Itoa z ->
                  retryDuration resp = (z * Second)%Z)).
Proof.
  intros token Do req resps fuel Hth Hlast Hlt. split.
  - destruct (doRequestLoop_settles Do (authorize token req)
                (fuel - S (List.length resps)) (List.length resps)
                (rounds (authorize token req) resps) Hlast) as [out Hout].
    exists out. eexists. split.
    + replace fuel with (List.length resps + S (fuel - S (List.length resps)))%nat
        at 1 by lia.
      rewrite doRequest_after_throttled by exact Hth. exact Hout.
    + rewrite sleeps_app, sleeps_rounds. simpl. apply app_nil_r.
  - intros resp. repeat split.
    + intros He. unfold retryDuration. now rewrite He.
    + intros Hp. unfold retryDuration. rewrite Hp.
      destruct (String.eqb (RetryAfter resp) ""); reflexivity.
    + intros z Hp. now apply retryDuration_parsed.
    + intros z Hz He. apply retryDuration_parsed. rewrite He.
      now apply ParseInt_Itoa.
Qed.

Lemma retry_wait_from_header_witness :
  throttledFirst flakyTransport (authorize "token" accountRequest) flakyResponses /\
  (exists out trace,
     doRequest "token" flakyTransport accountRequest 3 = Some (out, trace) /\
     sleeps trace = [(5 * Second)%Z; (2 * Second)%Z]) /\
  retryDuration (mkHTTPResponse 429 (Itoa 2) (inl "")) = (2 * Second)%Z.
Proof.
  split; [apply throttledFirst_flaky|].
  destruct (retry_wait_from_header "token" flakyTransport accountRequest
              flakyResponses 3 (throttledFirst_flaky "token") eq_refl
              (Nat.lt_succ_diag_r 2)) as [Hrun Hwait].
  split; [exact Hrun|].
  apply (proj2 (proj2 (proj2 (Hwait (mkHTTPResponse 429 (Itoa 2) (inl ""))))) 2%Z);
    [vm_compute; split; discriminate | reflexivity].
Defined.

(* ================================================================== *)
(** * Properties of the paginated fetches *)

Lemma first_answer (getPage : nat -> PageRequest -> outcome GeniusResponse) k
    (pages : list ResponseBody) b :
  (forall i b q, nth_error pages i = Some b -> getPage (k + i)%nat q = envelope b) ->
  nth_error pages 0 = Some b ->
  forall q, getPage k q = envelope b.
Proof.
  intros Hsrv Hb q. rewrite <- (Hsrv 0%nat b q Hb). f_equal. lia.
Qed.

(** *** Fetching until the end *)

(** In [GetArtistSongs] the test for the last page comes before the
    songs of the page are appended: the songs of the pages before the
    last one are returned, those of the last one are not. *)
Lemma songsLoop_until_end getPage total perPage pages lastPage :
  forall fuel k songs p perPg trace,
    (forall i b q, nth_error (pages ++ [lastPage])%list i = Some b ->
                   getPage (k + i)%nat q = envelope b) ->
    (forall b, In b pages -> NextPage b <> 0%Z) ->
    NextPage lastPage = 0%Z ->
    (List.length pages < fuel)%nat ->
    exists trace',
      songsLoop getPage true total perPage fuel k songs p perPg trace
      = (Some (Ret (songs ++ flat_map Songs pages)%list), trace') /\
      List.length trace' = (List.length trace + S (List.length pages))%nat.
Proof.
  induction pages as [|b pages IH];
    intros fuel k songs p perPg trace Hsrv Hnext Hlast Hfuel.
  - destruct fuel as [|fuel]; [simpl in Hfuel; lia|].
    cbn [songsLoop orb]. rewrite (first_answer getPage k _ lastPage Hsrv eq_refl).
    cbn [envelope Response andb]. rewrite Hlast. cbn [Z.eqb].
    eexists. split; [now rewrite app_nil_r|].
    rewrite length_app. simpl. lia.
  - destruct fuel as [|fuel]; [simpl in Hfuel; lia|].
    cbn [songsLoop orb]. rewrite (first_answer getPage k _ b Hsrv eq_refl).
    cbn [envelope Response andb negb].
    assert (Hb : (NextPage b =? 0)%Z = false)
      by (apply Z.eqb_neq, Hnext; now left).
    rewrite Hb.
    destruct (IH fuel (S k) (songs ++ Songs b)%list (NextPage b) perPg
                (trace ++ [mkPageRequest perPg p])%list)
      as (trace' & Hrun & Hlen).
    + intros i b' q Hi. replace (S k + i)%nat with (k + S i)%nat by lia.
      apply Hsrv. exact Hi.
    + intros b' Hb'. apply Hnext. now right.
    + exact Hlast.
    + simpl in Hfuel. lia.
    + exists trace'. split.
      * rewrite Hrun. cbn [flat_map]. now rewrite app_assoc.
      * rewrite Hlen, length_app. simpl. lia.
Qed.

(** In [GetArtistAlbums] the albums of a page are appended whatever its
    next page: the albums of every page are returned. *)
Lemma albumsLoop_until_end getPage pages lastPage :
  forall fuel k albums p trace,
    (forall i b q, nth_error (pages ++ [lastPage])%list i = Some b ->
                   getPage (k + i)%nat q = envelope b) ->
    (forall b, In b pages -> (1 <= NextPage b)%Z) ->
    (NextPage lastPage < 1)%Z ->
    (1 <= p)%Z ->
    (S (List.length pages) < fuel)%nat ->
    exists trace',
      albumsLoop getPage fuel k albums p trace
      = (Some (Ret (albums ++ flat_map Albums (pages ++ [lastPage]))%list), trace') /\
      List.length trace' = (List.length trace + S (List.length pages))%nat.
Proof.
  induction pages as [|b pages IH];
    intros fuel k albums p trace Hsrv Hnext Hlast Hp Hfuel.
  - destruct fuel as [|[|fuel]]; [simpl in Hfuel; lia..|].
    cbn [albumsLoop]. destruct (Z.leb_spec 1 p); [|lia].
    rewrite (first_answer getPage k _ lastPage Hsrv eq_refl).
    cbn [envelope Response]. destruct (Z.leb_spec 1 (NextPage lastPage)); [lia|].
    eexists. split; [simpl; now rewrite app_nil_r|].
    rewrite length_app. simpl. lia.
  - destruct fuel as [|fuel]; [simpl in Hfuel; lia|].
    cbn [albumsLoop]. destruct (Z.leb_spec 1 p); [|lia].
    rewrite (first_answer getPage k _ b Hsrv eq_refl). cbn [envelope Response].
    destruct (IH fuel (S k) (albums ++ Albums b)%list (NextPage b)
                (trace ++ [mkPageRequest 50 p])%list)
      as (trace' & Hrun & Hlen).
    + intros i b' q Hi. replace (S k + i)%nat with (k + S i)%nat by lia.
      apply Hsrv. exact Hi.
    + intros b' Hb'. apply Hnext. now right.
    + exact Hlast.
    + apply Hnext. now left.
    + simpl in Hfuel. lia.
    + exists trace'. split.
      * rewrite Hrun. cbn [flat_map app]. now rewrite app_assoc.
      * rewrite Hlen, length_app. simpl. lia.
Qed.

(** C3: on an unbounded fetch [GetArtistSongs] stops at the first page
    whose next page is zero, having asked for every page once, but it
    returns the songs of the pages before that one only: the songs of the
    final page are missing.  [GetArtistAlbums], on the same kind of
    answers, returns the albums of every page, the final one included. *)
Theorem unbounded_songs_drop_final_page :
  forall (getPage : nat -> PageRequest -> outcome GeniusResponse)
         (pages : list ResponseBody) (lastPage : ResponseBody) (fuel : nat),
    answersWith getPage (pages ++ [lastPage])%list ->
    (forall b, In b pages -> (1 <= NextPage b)%Z) ->
    NextPage lastPage = 0%Z ->
    (S (List.length pages) < fuel)%nat ->
    (exists trace,
       GetArtistSongs getPage (-1) fuel
       = (Some (Ret (flat_map Songs pages)), trace) /\
       List.length trace = S (List.length pages)) /\
    (exists trace,
       GetArtistAlbums getPage fuel
       = (Some (Ret (flat_map Albums (pages ++ [lastPage])%list)), trace) /\
       List.length trace = S (List.length pages)).
Proof.
  intros getPage pages lastPage fuel Hsrv Hnext Hlast Hfuel. split.
  - unfold GetArtistSongs. cbn [Z.eqb negb].
    destruct (songsLoop_until_end getPage (-1) 50 pages lastPage fuel 0 [] 1 0 [])
      as (trace & Hrun & Hlen); auto.
    + intros b Hb. specialize (Hnext b Hb). lia.
    + lia.
    + exists trace. split; [exact Hrun | exact Hlen].
  - unfold GetArtistAlbums.
    destruct (albumsLoop_until_end getPage pages lastPage fuel 0 [] 1 [])
      as (trace & Hrun & Hlen); auto; try lia.
    exists trace. split; [exact Hrun | exact Hlen].
Qed.

Lemma answersWith_onePage : answersWith onePageServer ([] ++ [onePage])%list.
Proof.
  intros k b q Hk. destruct k as [|k]; simpl in Hk.
  - injection Hk as <-. reflexivity.
  - destruct k; discriminate Hk.
Qed.

Lemma unbounded_songs_drop_final_page_witness :
  answersWith onePageServer ([] ++ [onePage])%list /\
  Songs onePage = [mkSong 1; mkSong 2] /\
  (exists trace, GetArtistSongs onePageServer (-1) 2 = (Some (Ret []), trace) /\
                 List.length trace = 1%nat) /\
  (exists trace, GetArtistAlbums onePageServer 2 = (Some (Ret [mkAlbum 7]), trace) /\
                 List.length trace = 1%nat).
Proof.
  split; [apply answersWith_onePage|]. split; [reflexivity|].
  refine (unbounded_songs_drop_final_page onePageServer [] onePage 2
            answersWith_onePage _ eq_refl _).
  - intros b [].
  - simpl; lia.
Defined.

(** *** Fetching a fixed number of songs *)

Lemma int_sub_small a b :
  (- 2 ^ 63 <= a - b < 2 ^ 63)%Z -> int_sub a b = (a - b)%Z.
Proof. apply wrap64_small. Qed.

Lemma int_mul_small a b :
  (- 2 ^ 63 <= a * b < 2 ^ 63)%Z -> int_mul a b = (a * b)%Z.
Proof. apply wrap64_small. Qed.

(** The page size of a bounded fetch before page [p]: what is left of
    [total] once [p - 1] pages of 50 are counted as fetched, at most 50. *)
Lemma getPerPage_before_page total p :
  (0 <= total < 2 ^ 62)%Z ->
  (0 <= p)%Z -> ((p - 1) * 50 <= total + 50)%Z ->
  getPerPage total (int_mul (int_sub p 1) 50) 50
  = Z.min 50 (total - (p - 1) * 50).
Proof.
  change (2 ^ 62)%Z with 4611686018427387904%Z.
  intros Ht Hp Hle. unfold getPerPage.
  rewrite (int_sub_small p 1)
    by (change (2 ^ 63)%Z with 9223372036854775808%Z; lia).
  rewrite (int_mul_small (p - 1) 50)
    by (change (2 ^ 63)%Z with 9223372036854775808%Z; lia).
  rewrite (int_sub_small total ((p - 1) * 50))
    by (change (2 ^ 63)%Z with 9223372036854775808%Z; lia).
  destruct (Z.ltb_spec (total - (p - 1) * 50) 50); lia.
Qed.

Lemma songsLoop_trace_prefix getPage fetchUntilEnd total perPage fuel :
  forall k songs p perPg trace,
    exists rest,
      snd (songsLoop getPage fetchUntilEnd total perPage fuel k songs p perPg trace)
      = (trace ++ rest)%list.
Proof.
  induction fuel as [|fuel IH]; intros k songs p perPg trace.
  - exists []. simpl. now rewrite app_nil_r.
  - cbn [songsLoop].
    destruct (fetchUntilEnd || (0 <? perPg)%Z)%bool;
      [|exists []; simpl; now rewrite app_nil_r].
    destruct (getPage k (mkPageRequest perPg p)) as [resp| |];
      try (eexists; reflexivity).
    destruct (Response resp) as [body|]; [|eexists; reflexivity].
    destruct (fetchUntilEnd && (NextPage body =? 0)%Z)%bool;
      [eexists; reflexivity|].
    match goal with
    | |- context [songsLoop _ _ _ _ fuel ?k' ?s' ?p' ?n' ?t'] =>
        destruct (IH k' s' p' n' t') as [rest Hrest]
    end.
    exists (mkPageRequest perPg p :: rest). rewrite Hrest.
    now rewrite <- app_assoc.
Qed.

(** An iteration whose condition holds sends its query. *)
Lemma songsLoop_sends getPage fetchUntilEnd total perPage fuel k songs p perPg trace :
  (fetchUntilEnd || (0 <? perPg)%Z)%bool = true ->
  exists rest,
    snd (songsLoop getPage fetchUntilEnd total perPage (S fuel) k songs p perPg trace)
    = (trace ++ mkPageRequest perPg p :: rest)%list.
Proof.
  intros Hc. cbn [songsLoop]. rewrite Hc.
  destruct (getPage k (mkPageRequest perPg p)) as [resp| |];
    try (exists []; reflexivity).
  destruct (Response resp) as [body|]; [|exists []; reflexivity].
  destruct (fetchUntilEnd && (NextPage body =? 0)%Z)%bool;
    [exists []; reflexivity|].
  match goal with
  | |- context [songsLoop _ _ _ _ fuel ?k' ?s' ?p' ?n' ?t'] =>
      destruct (songsLoop_trace_prefix getPage fetchUntilEnd total perPage fuel
                  k' s' p' n' t') as [rest Hrest]
  end.
  exists rest. rewrite Hrest. now rewrite <- app_assoc.
Qed.

(** One round of a bounded fetch: the songs are appended, the cursor takes
    the reported next page and the page size is computed from it. *)
Lemma songsLoop_bounded_round getPage total fuel k songs p perPg trace body :
  (0 <? perPg)%Z = true ->
  getPage k (mkPageRequest perPg p) = envelope body ->
  songsLoop getPage false total 50 (S fuel) k songs p perPg trace
  = songsLoop getPage false total 50 fuel (S k) (songs ++ Songs body)%list
      (NextPage body)
      (getPerPage total (int_mul (int_sub (NextPage body) 1) 50) 50)
      (trace ++ [mkPageRequest perPg p])%list.
Proof.
  intros Hc Hb. cbn [songsLoop orb]. rewrite Hc, Hb. reflexivity.
Qed.

(** C8: the page number of a bounded fetch is whatever the service
    reported as next page.  When the first answer carries no next page
    (the collection is exhausted), the cursor becomes 0, the remaining
    count is computed from -50 songs fetched, and a second query is sent
    for page 0 with 50 songs per page, whatever the service does next. *)
Theorem bounded_fetch_queries_page_zero :
  forall (getPage : nat -> PageRequest -> outcome GeniusResponse)
         (total : Z) (b : ResponseBody) (fuel : nat),
    (0 < total < 2 ^ 62)%Z ->
    getPage 0%nat (mkPageRequest (Z.min 50 total) 1) = envelope b ->
    NextPage b = 0%Z ->
    exists rest,
      snd (GetArtistSongs getPage total (S (S fuel)))
      = mkPageRequest (Z.min 50 total) 1 :: mkPageRequest 50 0 :: rest.
Proof.
  intros getPage total b fuel Ht Hb Hnext. unfold GetArtistSongs.
  destruct (Z.eqb_spec total (-1)) as [He|_]; [lia|]. cbn [negb].
  rewrite getPerPage_before_page by lia.
  replace (total - (1 - 1) * 50)%Z with total by lia.
  rewrite (songsLoop_bounded_round getPage total (S fuel) 0 [] 1
             (Z.min 50 total) [] b) by (try apply Z.ltb_lt; auto; lia).
  rewrite Hnext, getPerPage_before_page by lia.
  replace (Z.min 50 (total - (0 - 1) * 50)) with 50%Z by lia.
  destruct (songsLoop_sends getPage false total 50 fuel 1
              ([] ++ Songs b)%list 0 50
              ([] ++ [mkPageRequest (Z.min 50 total) 1])%list eq_refl)
    as [rest Hrest].
  exists rest. rewrite Hrest. reflexivity.
Qed.

Lemma bounded_fetch_queries_page_zero_witness :
  exhaustedServer 0%nat (mkPageRequest 30 1) = envelope thirtySongs /\
  NextPage thirtySongs = 0%Z /\
  GetArtistSongs exhaustedServer 30 2
  = (Some (Err (errorString "invalid page")),
     [mkPageRequest 30 1; mkPageRequest 50 0]) /\
  exists rest,
    snd (GetArtistSongs exhaustedServer 30 2)
    = mkPageRequest 30 1 :: mkPageRequest 50 0 :: rest.
Proof.
  split; [reflexivity|]. split; [reflexivity|]. split; [reflexivity|].
  apply (bounded_fetch_queries_page_zero exhaustedServer 30 thirtySongs 0);
    [vm_compute; split; reflexivity | reflexivity | reflexivity].
Defined.

(** A bounded fetch of 30 songs from an artist who has exactly 30: the
    first query asks for 30 songs and receives them, and the loop goes on
    and asks for 50 more on page 0, 80 in all. *)
Example bounded_fetch_overshoots_when_exhausted :
  GetArtistSongs exhaustedServer 30 2
  = (Some (Err (errorString "invalid page")),
     [mkPageRequest 30 1; mkPageRequest 50 0]) /\
  List.length (Songs thirtySongs) = 30%nat /\
  requestedItems (snd (GetArtistSongs exhaustedServer 30 2)) = 80%Z.
Proof. repeat split. Qed.

(** *** A bounded fetch against a service that always names the next page *)

Lemma pagesNeeded_nonpos r : (r <= 0)%Z -> pagesNeeded r = 0%nat.
Proof.
  intros Hr. unfold pagesNeeded.
  assert ((r + 49) / 50 < 1)%Z by (apply Z.div_lt_upper_bound; lia).
  lia.
Qed.

Lemma pagesNeeded_pos r : (0 < r)%Z -> pagesNeeded r = S (pagesNeeded (r - 50)).
Proof.
  intros Hr. unfold pagesNeeded.
  replace (r + 49)%Z with (r - 1 + 1 * 50)%Z by lia.
  replace (r - 50 + 49)%Z with (r - 1)%Z by lia.
  rewrite Z.div_add by lia.
  assert (0 <= (r - 1) / 50)%Z by (apply Z.div_pos; lia).
  rewrite Z2Nat.inj_add by lia. simpl. lia.
Qed.

Lemma requestedItems_cons q trace :
  requestedItems (q :: trace) = (per_page q + requestedItems trace)%Z.
Proof. reflexivity. Qed.

Lemma songsLoop_bounded_plan getPage total :
  (0 <= total < 2 ^ 62)%Z ->
  namesNextPage getPage ->
  forall n p k songs trace fuel,
    (1 <= p)%Z -> ((p - 1) * 50 <= total + 50)%Z ->
    n = pagesNeeded (total - (p - 1) * 50) ->
    (n < fuel)%nat ->
    exists songs',
      songsLoop getPage false total 50 fuel k songs p
        (Z.min 50 (total - (p - 1) * 50)) trace
      = (Some (Ret songs'), (trace ++ planFrom n total p)%list) /\
      (fullPages getPage ->
       Z.of_nat (List.length songs')
       = (Z.of_nat (List.length songs) + requestedItems (planFrom n total p))%Z).
Proof.
  intros Ht Hsrv. induction n as [|n IH];
    intros p k songs trace fuel Hp Hle Hn Hfuel.
  - destruct fuel as [|fuel]; [lia|].
    assert (Hr : (total - (p - 1) * 50 <= 0)%Z).
    { destruct (Z.le_gt_cases (total - (p - 1) * 50) 0) as [H|H]; [exact H|].
      rewrite pagesNeeded_pos in Hn by lia. discriminate Hn. }
    cbn [songsLoop orb planFrom].
    destruct (Z.ltb_spec 0 (Z.min 50 (total - (p - 1) * 50))); [lia|].
    exists songs. split; [now rewrite app_nil_r | simpl; lia].
  - destruct fuel as [|fuel]; [lia|].
    assert (Hr : (0 < total - (p - 1) * 50)%Z).
    { destruct (Z.le_gt_cases (total - (p - 1) * 50) 0) as [H|H]; [|lia].
      rewrite pagesNeeded_nonpos in Hn by lia. discriminate Hn. }
    destruct (Hsrv k (mkPageRequest (Z.min 50 (total - (p - 1) * 50)) p))
      as (body & Hbody & Hnext).
    cbn [page] in Hnext.
    rewrite (songsLoop_bounded_round getPage total fuel k songs p _ trace body)
      by (try apply Z.ltb_lt; auto; lia).
    rewrite Hnext, getPerPage_before_page by lia.
    rewrite pagesNeeded_pos in Hn by lia. injection Hn as Hn.
    destruct (IH (p + 1)%Z (S k) (songs ++ Songs body)%list
                (trace ++ [mkPageRequest (Z.min 50 (total - (p - 1) * 50)) p])%list
                fuel) as (songs' & Hrun & Hlen); try lia.
    { rewrite Hn. f_equal. lia. }
    exists songs'. split.
    + rewrite Hrun. cbn [planFrom]. now rewrite <- app_assoc.
    + intros Hfull. rewrite (Hlen Hfull), length_app, Nat2Z.inj_add.
      rewrite (Hfull k (mkPageRequest (Z.min 50 (total - (p - 1) * 50)) p) body)
        by (cbn [per_page]; first [lia | exact Hbody]).
      cbn [planFrom per_page].
      rewrite requestedItems_cons. cbn [per_page]. lia.
Qed.

Lemma requestedItems_plan total n : forall p,
  (0 <= total - (p - 1) * 50)%Z ->
  n = pagesNeeded (total - (p - 1) * 50) ->
  requestedItems (planFrom n total p) = (total - (p - 1) * 50)%Z.
Proof.
  induction n as [|n IH]; intros p Hr Hn.
  - destruct (Z.le_gt_cases (total - (p - 1) * 50) 0) as [H|H].
    + simpl. lia.
    + rewrite pagesNeeded_pos in Hn by lia. discriminate Hn.
  - destruct (Z.le_gt_cases (total - (p - 1) * 50) 0) as [H|H].
    { rewrite pagesNeeded_nonpos in Hn by lia. discriminate Hn. }
    rewrite pagesNeeded_pos in Hn by lia. injection Hn as Hn.
    cbn [planFrom]. rewrite requestedItems_cons. cbn [per_page].
    destruct (Z.le_gt_cases 50 (total - (p - 1) * 50)) as [Hbig|Hsmall].
    + rewrite IH; [lia | lia |].
      rewrite Hn. f_equal. lia.
    + rewrite pagesNeeded_nonpos in Hn by lia. subst n. simpl. lia.
Qed.

Lemma planFrom_nth total n : forall p i q,
  n = pagesNeeded (total - (p - 1) * 50) ->
  nth_error (planFrom n total p) i = Some q ->
  page q = (p + Z.of_nat i)%Z /\
  per_page q = Z.min 50 (total - 50 * (p - 1 + Z.of_nat i)) /\
  (0 < per_page q)%Z.
Proof.
  induction n as [|n IH]; intros p i q Hn Hq.
  - destruct i; discriminate Hq.
  - destruct (Z.le_gt_cases (total - (p - 1) * 50) 0) as [H|H].
    { rewrite pagesNeeded_nonpos in Hn by lia. discriminate Hn. }
    rewrite pagesNeeded_pos in Hn by lia. injection Hn as Hn.
    destruct i as [|i]; cbn [planFrom nth_error] in Hq.
    + injection Hq as <-. cbn [page per_page]. repeat split; lia.
    + destruct (IH (p + 1)%Z i q) as (Hpage & Hper & Hpos); auto.
      { rewrite Hn. f_equal. lia. }
      rewrite Hpage, Hper. repeat split; try lia;
        try (f_equal; lia); rewrite <- Hper; exact Hpos.
Qed.

(** C4 (amended): in a bounded fetch of [total] songs the songs fetched so
    far are counted from the page number, 50 for each page before the one
    asked for, whatever those pages held.  Against a service whose every
    answer names the page after the one asked for, the query for page
    [i + 1] asks for min(50, total - 50 * i) songs, the loop ends when
    that count is used up, and [total] songs are asked for in all; when
    in addition every answer holds as many songs as were asked for,
    [total] songs are returned. *)
Theorem bounded_fetch_consecutive_pages :
  forall (getPage : nat -> PageRequest -> outcome GeniusResponse)
         (total : Z) (fuel : nat),
    (0 <= total < 2 ^ 62)%Z ->
    namesNextPage getPage ->
    (pagesNeeded total < fuel)%nat ->
    exists songs queries,
      GetArtistSongs getPage total fuel = (Some (Ret songs), queries) /\
      (forall i q, nth_error queries i = Some q ->
         page q = (1 + Z.of_nat i)%Z /\
         per_page q = Z.min 50 (total - 50 * Z.of_nat i) /\
         (0 < per_page q)%Z) /\
      List.length queries = pagesNeeded total /\
      requestedItems queries = total /\
      (fullPages getPage -> Z.of_nat (List.length songs) = total).
Proof.
  intros getPage total fuel Ht Hsrv Hfuel. unfold GetArtistSongs.
  destruct (Z.eqb_spec total (-1)) as [He|_]; [lia|]. cbn [negb].
  rewrite getPerPage_before_page by lia.
  destruct (songsLoop_bounded_plan getPage total Ht Hsrv (pagesNeeded total)
              1 0%nat [] [] fuel) as (songs & Hrun & Hlen); try lia.
  { f_equal. lia. }
  assert (Hsum : requestedItems (planFrom (pagesNeeded total) total 1) = total).
  { rewrite (requestedItems_plan total (pagesNeeded total) 1); try lia.
    f_equal. lia. }
  exists songs, (planFrom (pagesNeeded total) total 1).
  split; [exact Hrun|]. split; [|split; [|split]].
  - intros i q Hq.
    assert (Hn : pagesNeeded total = pagesNeeded (total - (1 - 1) * 50))
      by (f_equal; lia).
    destruct (planFrom_nth total (pagesNeeded total) 1 i q Hn Hq)
      as (H1 & H2 & H3).
    repeat split; [exact H1 | exact H2 | exact H3].
  - clear. generalize 1%Z. induction (pagesNeeded total) as [|n IH];
      intros p; simpl; [reflexivity | now rewrite IH].
  - exact Hsum.
  - intros Hfull. rewrite (Hlen Hfull), Hsum. simpl. lia.
Qed.

Lemma namesNextPage_fullServer : namesNextPage fullServer.
Proof. intros k q. eexists. split; reflexivity. Qed.

Lemma fullPages_fullServer_125 :
  exists songs,
    GetArtistSongs fullServer 125 4
    = (Some (Ret songs),
       [mkPageRequest 50 1; mkPageRequest 50 2; mkPageRequest 25 3]) /\
    List.length songs = 125%nat.
Proof. eexists. split; reflexivity. Qed.

Lemma fullPages_fullServer : fullPages fullServer.
Proof.
  intros k q body Hq Hb. unfold fullServer, envelope in Hb.
  injection Hb as <-. cbn [Songs]. unfold songsFrom.
  rewrite length_map, length_seq. lia.
Qed.

Lemma bounded_fetch_consecutive_pages_witness :
  namesNextPage fullServer /\
  fullPages fullServer /\
  (pagesNeeded 125 < 4)%nat /\
  exists songs queries,
    GetArtistSongs fullServer 125 4 = (Some (Ret songs), queries) /\
    queries = [mkPageRequest 50 1; mkPageRequest 50 2; mkPageRequest 25 3] /\
    requestedItems queries = 125%Z /\
    Z.of_nat (List.length songs) = 125%Z.
Proof.
  split; [apply namesNextPage_fullServer|].
  split; [apply fullPages_fullServer|].
  split; [vm_compute; lia|].
  destruct (bounded_fetch_consecutive_pages fullServer 125 4)
    as (songs & queries & Hrun & _ & _ & Hsum & Hlen).
  - vm_compute. split; [discriminate | reflexivity].
  - apply namesNextPage_fullServer.
  - vm_compute. lia.
  - exists songs, queries. split; [exact Hrun|]. split; [|split].
    + destruct fullPages_fullServer_125 as (songs' & Hrun' & _).
      rewrite Hrun' in Hrun. now injection Hrun as _ <-.
    + exact Hsum.
    + exact (Hlen fullPages_fullServer).
Defined.

(** C4 as stated fails: against a service whose pages hold 40 songs, 80
    songs have been fetched when the third query is sent, and it asks for
    25 songs, not for min(50, 125 - 80) = 45. *)
Lemma bounded_fetch_short_pages_counterexample :
  exists songs,
    GetArtistSongs shortServer 125 4
    = (Some (Ret songs),
       [mkPageRequest 50 1; mkPageRequest 50 2; mkPageRequest 25 3]) /\
    List.length (firstn 80 songs) = 80%nat /\
    (exists b1 b2,
       shortServer 0%nat (mkPageRequest 50 1) = envelope b1 /\
       shortServer 1%nat (mkPageRequest 50 2) = envelope b2 /\
       firstn 80 songs = (Songs b1 ++ Songs b2)%list) /\
    per_page (mkPageRequest 25 3) <> Z.min 50 (125 - 80).
Proof.
  eexists. split; [reflexivity|]. split; [reflexivity|]. split.
  - eexists. eexists. split; [reflexivity|]. split; reflexivity.
  - discriminate.
Qed.

(* ================================================================== *)
(** * Further properties of the extractor *)

Lemma stripLoop_first_count marker attrs : forall cs,
  stripLoop marker removeFirstChild attrs cs =
  if (hits marker attrs <=? List.length cs)%nat
  then Ret (skipn (hits marker attrs) cs) else Panic.
Proof.
  unfold hits. induction attrs as [|a attrs IH]; intros cs; simpl.
  - reflexivity.
  - destruct (Contains (Val a) marker); simpl; [|apply IH].
    destruct cs as [|c cs]; simpl; [reflexivity|]. apply IH.
Qed.

Lemma removelast_firstn_pred (cs : list Node) :
  removelast cs = firstn (List.length cs - 1) cs.
Proof.
  induction cs as [|c cs IH]; [reflexivity|].
  destruct cs as [|c' cs']; [reflexivity|].
  change (removelast (c :: c' :: cs')) with (c :: removelast (c' :: cs')).
  rewrite IH. simpl. now rewrite Nat.sub_0_r.
Qed.

Lemma stripLoop_last_count marker attrs : forall cs,
  stripLoop marker removeLastChild attrs cs =
  if (hits marker attrs <=? List.length cs)%nat
  then Ret (firstn (List.length cs - hits marker attrs) cs) else Panic.
Proof.
  unfold hits. induction attrs as [|a attrs IH]; intros cs; simpl.
  - now rewrite Nat.sub_0_r, firstn_all.
  - destruct (Contains (Val a) marker); simpl; [|apply IH].
    destruct cs as [|c cs]; [reflexivity|].
    cbn [removeLastChild bind]. rewrite IH, removelast_firstn_pred.
    set (h := List.length (filter (fun a0 => Contains (Val a0) marker) attrs)).
    rewrite length_firstn.
    replace (Nat.min (List.length (c :: cs) - 1) (List.length (c :: cs)))
      with (List.length cs) by (simpl; lia).
    cbn [List.length].
    destruct (Nat.leb_spec h (List.length cs));
      destruct (Nat.leb_spec (S h) (S (List.length cs))); try lia;
      [|reflexivity].
    rewrite firstn_firstn. f_equal. f_equal. simpl. lia.
Qed.

Lemma stripBoilerplate_not_Err n err : stripBoilerplate n <> Err err.
Proof.
  unfold stripBoilerplate. destruct (FirstChild n) as [first|]; [|discriminate].
  rewrite stripLoop_first_count.
  destruct (_ <=? _)%nat; [|discriminate]. cbn [bind].
  destruct (LastChild _) as [lastc|]; [|discriminate].
  rewrite stripLoop_last_count.
  destruct (_ <=? _)%nat; discriminate.
Qed.

(** X1: the stripping loops remove one child per matching attribute
    value, not one child at most: of a first child with [h] attribute
    values containing "LyricsHeader" the header loop costs the container
    its [h] leading children, and of the last remaining child with [f]
    values containing "Footer" the footer loop costs it [f] trailing ones. *)
Theorem stripBoilerplate_removes_one_child_per_hit :
  forall (n first lastc : Node) (rest kept : list Node),
    Children n = first :: rest ->
    skipn (hits "LyricsHeader" (Attr first)) (Children n)
    = (kept ++ [lastc])%list ->
    (hits "Footer" (Attr lastc) <= S (List.length kept))%nat ->
    stripBoilerplate n
    = Ret (setChildren n
             (firstn (S (List.length kept) - hits "Footer" (Attr lastc))
                (kept ++ [lastc]))).
Proof.
  intros n first lastc rest kept Hc Hskip Hf.
  unfold stripBoilerplate, FirstChild. rewrite Hc. cbn [hd_error].
  rewrite stripLoop_first_count, <- Hc.
  destruct (Nat.leb_spec (hits "LyricsHeader" (Attr first))
              (List.length (Children n))) as [_|Hgt].
  2:{ rewrite skipn_all2 in Hskip by lia. destruct kept; discriminate Hskip. }
  cbn [bind]. rewrite Hskip. unfold LastChild. cbn [setChildren Children].
  assert (Hlast : forall d, last (kept ++ [lastc]) d = lastc)
    by (intros d; apply last_last).
  destruct (kept ++ [lastc])%list as [|k ks] eqn:Hk;
    [destruct kept; discriminate Hk|].
  assert (Hl : last ks k = lastc).
  { specialize (Hlast k). destruct ks; [exact Hlast|].
    simpl in Hlast |- *. exact Hlast. }
  rewrite Hl, stripLoop_last_count.
  assert (Hlen : List.length (k :: ks) = S (List.length kept)).
  { rewrite <- Hk, length_app. simpl. lia. }
  rewrite Hlen.
  destruct (Nat.leb_spec (hits "Footer" (Attr lastc)) (S (List.length kept)));
    [reflexivity | lia].
Qed.

Lemma stripBoilerplate_removes_one_child_per_hit_witness :
  hits "LyricsHeader" (Attr (element "div"
     [("class", "LyricsHeader"); ("data-x", "LyricsHeaderTitle")]
     [textNode "Title"])) = 2%nat /\
  stripBoilerplate twoHitsContainer
  = Ret (setChildren twoHitsContainer [textNode "second line"]).
Proof.
  split; [reflexivity|].
  exact (stripBoilerplate_removes_one_child_per_hit twoHitsContainer _
           (textNode "second line") _ [] eq_refl eq_refl (Nat.le_0_l 1)).
Defined.

Lemma Extract_first_match_panics parse body r m rest :
  parse body = inl r ->
  encountered r = m :: rest ->
  stripBoilerplate m = Panic ->
  Extract parse (NewExtractor body) = Panic.
Proof.
  intros Hp Henc Hm. unfold Extract.
  change (reader (NewExtractor body)) with body.
  rewrite Hp, walk_findDivLyrics, Henc. cbn [foldOutcome].
  unfold keepStripped. now rewrite Hm.
Qed.

(** X2: a container that stripping leaves without child makes the
    extraction panic: when the first div carrying [id="lyrics-root"] the
    locate pass meets has no child, or has its header as only child,
    [Extract] panics, whatever containers follow in the document. *)
Theorem Extract_panics_on_emptied_container :
  forall (parse : string -> Node + error) (body : string)
         (r m : Node) (rest : list Node),
    parse body = inl r ->
    encountered r = m :: rest ->
    Children m = [] \/
    (exists h, Children m = [h] /\
               existsb (fun a => Contains (Val a) "LyricsHeader") (Attr h) = true) ->
    Extract parse (NewExtractor body) = Panic.
Proof.
  intros parse body r m rest Hp Henc Hm.
  apply Extract_first_match_panics with (r := r) (m := m) (rest := rest); auto.
  unfold stripBoilerplate, FirstChild.
  destruct Hm as [Hm|(h & Hm & Hh)]; rewrite Hm; [reflexivity|].
  cbn [hd_error]. rewrite stripLoop_first_count.
  assert (Hpos : (1 <= hits "LyricsHeader" (Attr h))%nat).
  { unfold hits. apply existsb_exists in Hh. destruct Hh as (a & Ha & Hc).
    assert (Hin : In a (filter (fun a0 => Contains (Val a0) "LyricsHeader") (Attr h)))
      by (apply filter_In; auto).
    destruct (filter _ (Attr h)); [contradiction | simpl; lia]. }
  cbn [List.length].
  destruct (Nat.leb_spec (hits "LyricsHeader" (Attr h)) 1); [|reflexivity].
  replace (hits "LyricsHeader" (Attr h)) with 1%nat by lia. reflexivity.
Qed.

Lemma Extract_panics_on_emptied_container_witness :
  encountered emptyContainerFirst
  = [element "div" [("id", "lyrics-root")] []; lyricsContainer] /\
  Extract (parsesTo emptyContainerFirst) (NewExtractor "") = Panic /\
  Extract (parsesTo (document [headerOnlyContainer])) (NewExtractor "") = Panic.
Proof.
  split; [reflexivity|]. split.
  - exact (Extract_panics_on_emptied_container (parsesTo emptyContainerFirst) ""
             emptyContainerFirst _ _ eq_refl eq_refl (or_introl eq_refl)).
  - refine (Extract_panics_on_emptied_container
              (parsesTo (document [headerOnlyContainer])) ""
              (document [headerOnlyContainer]) headerOnlyContainer []
              eq_refl eq_refl (or_intror _)).
    eexists. split; reflexivity.
Defined.

Lemma foldOutcome_keepStripped_frame l : forall e,
  match foldOutcome keepStripped l e with
  | Ret e' =>
      reader e' = reader e /\ root e' = root e /\ text e' = text e /\
      (node e' = node e \/
       exists m m', In m l /\ stripBoilerplate m = Ret m' /\ node e' = Some m')
  | Err _ => False
  | Panic => exists m, In m l /\ stripBoilerplate m = Panic
  end.
Proof.
  induction l as [|m l IH]; intros e; cbn [foldOutcome].
  - repeat split; auto.
  - unfold keepStripped at 1.
    destruct (stripBoilerplate m) as [m'|err|] eqn:Hm; cbn [bind].
    + specialize (IH (setNode e m')).
      destruct (foldOutcome keepStripped l (setNode e m')) as [e'|err|].
      * destruct IH as (Hr & Hro & Ht & Hn). repeat split; auto. right.
        destruct Hn as [Hn|(x & x' & Hx & Hs & Hn)].
        -- exists m, m'. repeat split; auto. now left.
        -- exists x, x'. repeat split; auto. now right.
      * exact IH.
      * destruct IH as (x & Hx & Hs). exists x. split; [now right | exact Hs].
    + exact (stripBoilerplate_not_Err m err Hm).
    + exists m. split; [now left | exact Hm].
Qed.

(** X3: the locate pass never returns an error and does not touch the
    reader or the text gathered so far.  When it returns, the container
    is the one held before or the stripped form of a match met; when it
    panics, stripping one of the matches met panics. *)
Theorem locate_pass_only_sets_node :
  forall (r : Node) (e : Extractor),
    match walk findDivLyrics r e with
    | Ret e' =>
        reader e' = reader e /\ text e' = text e /\
        (node e' = node e \/
         exists m m', In m (encountered r) /\
                      stripBoilerplate m = Ret m' /\ node e' = Some m')
    | Err _ => False
    | Panic => exists m, In m (encountered r) /\ stripBoilerplate m = Panic
    end.
Proof.
  intros r e. rewrite walk_findDivLyrics.
  assert (H := foldOutcome_keepStripped_frame (encountered r) e).
  destruct (foldOutcome keepStripped (encountered r) e) as [e'|err|];
    [|exact H|exact H].
  destruct H as (Hr & _ & Ht & Hn). split; [exact Hr|]. split; [exact Ht|].
  exact Hn.
Qed.

(** X4: the text pass cannot fail on a node.  It leaves the reader, the
    root and the container as they are and appends to the text gathered
    so far the payload of every text node it reaches, in document order,
    each followed by a newline; nothing under a comment, doctype or error
    node is reached. *)
Theorem text_pass_appends_lines :
  forall (n : Node) (e : Extractor),
    exists e',
      walk htmlToText n e = Ret e' /\
      reader e' = reader e /\ root e' = root e /\ node e' = node e /\
      text e' = text e ++ concatLines (filter isTextNode (visited n)) /\
      (skippedType (Type' n) = true -> e' = e).
Proof.
  intros n e. rewrite walk_htmlToText. eexists. split; [reflexivity|].
  repeat split.
  intros Hs. rewrite visited_eq, Hs. simpl.
  now rewrite append_nil_r, setText_same.
Qed.

Lemma text_pass_appends_lines_witness :
  walk htmlToText (mkNode CommentNode "" "note" [] [textNode "hidden"])
    (NewExtractor "")
  = Ret (NewExtractor "").
Proof.
  destruct (text_pass_appends_lines
              (mkNode CommentNode "" "note" [] [textNode "hidden"])
              (NewExtractor "")) as (e' & Hw & _ & _ & _ & _ & Hs).
  rewrite Hw. f_equal. exact (Hs eq_refl).
Defined.

Lemma foldOutcome_keepStripped_setRoot l r : forall e,
  foldOutcome keepStripped l (setRoot e r)
  = e' <- foldOutcome keepStripped l e ;; Ret (setRoot e' r).
Proof.
  induction l as [|m l IH]; intros e; cbn [foldOutcome]; [reflexivity|].
  unfold keepStripped at 1 3.
  destruct (stripBoilerplate m) as [m'| |]; cbn [bind]; try reflexivity.
  change (setNode (setRoot e r) m') with (setRoot (setNode e m') r).
  apply IH.
Qed.

Lemma Extract_by_matches parse body r :
  parse body = inl r ->
  Extract parse (NewExtractor body)
  = e1 <- foldOutcome keepStripped (encountered r) (NewExtractor body) ;;
    e2 <- walkPtr htmlToText (node e1) e1 ;;
    Ret (text e2).
Proof.
  intros Hp. unfold Extract. change (reader (NewExtractor body)) with body.
  rewrite Hp, walk_findDivLyrics, foldOutcome_keepStripped_setRoot.
  destruct (foldOutcome keepStripped (encountered r) (NewExtractor body))
    as [e1| |]; cbn [bind]; try reflexivity.
  change (node (setRoot e1 r)) with (node e1).
  destruct (node e1) as [c|]; cbn [walkPtr bind]; [|reflexivity].
  now rewrite !walk_htmlToText.
Qed.

Lemma foldOutcome_keepStripped_reader l b1 b2 : forall n t,
  foldOutcome keepStripped l (mkExtractor b2 None n t)
  = e' <- foldOutcome keepStripped l (mkExtractor b1 None n t) ;;
    Ret (mkExtractor b2 (root e') (node e') (text e')).
Proof.
  induction l as [|m l IH]; intros n t; cbn [foldOutcome]; [reflexivity|].
  unfold keepStripped.
  destruct (stripBoilerplate m) as [m'| |]; cbn [bind]; try reflexivity.
  exact (IH (Some m') t).
Qed.

(** X5: what [Extract] returns depends on the document through the
    matches the locate pass meets only: two documents in which it meets
    the same matches give the same result, whatever else they hold. *)
Theorem Extract_ignores_what_is_outside_the_matches :
  forall (parse1 parse2 : string -> Node + error) (body1 body2 : string)
         (r1 r2 : Node),
    parse1 body1 = inl r1 ->
    parse2 body2 = inl r2 ->
    encountered r1 = encountered r2 ->
    Extract parse1 (NewExtractor body1) = Extract parse2 (NewExtractor body2).
Proof.
  intros parse1 parse2 body1 body2 r1 r2 H1 H2 Henc.
  rewrite (Extract_by_matches parse1 body1 r1 H1).
  rewrite (Extract_by_matches parse2 body2 r2 H2). rewrite Henc.
  unfold NewExtractor.
  rewrite (foldOutcome_keepStripped_reader (encountered r2) body1 body2 None "").
  destruct (foldOutcome keepStripped (encountered r2)
              (mkExtractor body1 None None "")) as [e1| |];
    cbn [bind node]; try reflexivity.
  destruct (node e1) as [c|]; cbn [walkPtr bind]; [|reflexivity].
  now rewrite !walk_htmlToText.
Qed.

Lemma Extract_ignores_what_is_outside_the_matches_witness :
  encountered lyricsPage = encountered noisyLyricsPage /\
  Extract (parsesTo lyricsPage) (NewExtractor "a")
  = Extract (parsesTo noisyLyricsPage) (NewExtractor "b").
Proof.
  split; [reflexivity|].
  exact (Extract_ignores_what_is_outside_the_matches (parsesTo lyricsPage)
           (parsesTo noisyLyricsPage) "a" "b" lyricsPage noisyLyricsPage
           eq_refl eq_refl eq_refl).
Defined.

(** *** White space around the lyrics *)

Lemma spaceEncodings_nonempty : Forall (fun enc => enc <> "") spaceEncodings.
Proof. repeat constructor; discriminate. Qed.

Lemma revSpaceEncodings_nonempty :
  Forall (fun enc => enc <> "") (map rev_string spaceEncodings).
Proof. repeat constructor; discriminate. Qed.

Lemma cutSpace_shorter encs s r :
  Forall (fun enc => enc <> "") encs ->
  cutSpace encs s = Some r -> (length r < length s)%nat.
Proof.
  unfold cutSpace. induction 1 as [|enc encs Hne _ IH]; simpl; [discriminate|].
  destruct (cutPrefix enc s) as [r'|] eqn:Hc; [|exact IH].
  intros H. injection H as <-. apply cutPrefix_Some in Hc. subst s.
  rewrite length_append. destruct enc; [contradiction | simpl; lia].
Qed.

Lemma trimLeftSpaces_done encs fuel : forall s,
  Forall (fun enc => enc <> "") encs ->
  (length s <= fuel)%nat ->
  cutSpace encs (trimLeftSpaces encs fuel s) = None.
Proof.
  induction fuel as [|fuel IH]; intros s Hne Hlen.
  - destruct (cutSpace encs (trimLeftSpaces encs 0 s)) as [r|] eqn:Hc;
      [|reflexivity].
    apply (cutSpace_shorter encs _ r Hne) in Hc. simpl in Hc. lia.
  - simpl. destruct (cutSpace encs s) as [r|] eqn:Hc; [|exact Hc].
    apply IH; [exact Hne|].
    apply (cutSpace_shorter encs s r Hne) in Hc. lia.
Qed.

Lemma cutPrefix_app p : forall t r b,
  cutPrefix p t = Some r -> cutPrefix p (t ++ b) = Some (r ++ b).
Proof.
  induction p as [|a p IH]; intros t r b H; simpl in *.
  - now injection H as <-.
  - destruct t as [|c t]; [discriminate|]. simpl.
    destruct (Ascii.eqb a c); [now apply IH | discriminate].
Qed.

Lemma cutSpace_app encs t b :
  cutSpace encs (t ++ b) = None -> cutSpace encs t = None.
Proof.
  unfold cutSpace. induction encs as [|enc encs IH]; simpl; [reflexivity|].
  destruct (cutPrefix enc t) as [r|] eqn:Hc.
  - now rewrite (cutPrefix_app enc t r b Hc).
  - destruct (cutPrefix enc (t ++ b)); [discriminate | exact IH].
Qed.

Lemma length_rev_string s : length (rev_string s) = length s.
Proof.
  induction s as [|x s IH]; simpl; [reflexivity|].
  rewrite length_append, IH. simpl. lia.
Qed.

Lemma TrimSpace_no_trailing_space s : endsWithSpace (TrimSpace s) = false.
Proof.
  unfold endsWithSpace, TrimSpace. rewrite rev_string_involutive.
  rewrite trimLeftSpaces_done;
    [reflexivity | apply revSpaceEncodings_nonempty |].
  now rewrite length_rev_string.
Qed.

Lemma TrimSpace_no_leading_space s : startsWithSpace (TrimSpace s) = false.
Proof.
  unfold startsWithSpace.
  assert (Hl : cutSpace spaceEncodings
                 (trimLeftSpaces spaceEncodings (length s) s) = None)
    by (apply trimLeftSpaces_done; [apply spaceEncodings_nonempty | lia]).
  unfold TrimSpace.
  set (l := trimLeftSpaces spaceEncodings (length s) s) in *.
  destruct (trimLeftSpaces_suffix (map rev_string spaceEncodings) (length l)
              (rev_string l)) as [b Hb].
  set (t := trimLeftSpaces (map rev_string spaceEncodings) (length l)
              (rev_string l)) in *.
  assert (Hlt : l = rev_string t ++ rev_string b)
    by (rewrite <- rev_string_app, <- Hb; now rewrite rev_string_involutive).
  rewrite Hlt in Hl. now rewrite (cutSpace_app _ _ _ Hl).
Qed.

(** X6: the lyrics [GetLyrics] returns never start with white space.
    They do not end with white space either unless "Embed" was cut: what
    stood before "Embed" is not trimmed again. *)
Theorem GetLyrics_white_space :
  forall lyrics : string,
    startsWithSpace (trimEmbed lyrics) = false /\
    (HasSuffix (TrimSpace lyrics) "Embed" = false ->
     endsWithSpace (trimEmbed lyrics) = false) /\
    (forall parse body,
       Extract parse (NewExtractor body) = Ret lyrics ->
       exists s, GetLyrics parse (inl body) = Ret s /\
                 startsWithSpace s = false).
Proof.
  intros lyrics.
  assert (Hstart : startsWithSpace (trimEmbed lyrics) = false).
  { unfold trimEmbed. cbv zeta.
    destruct (HasSuffix (TrimSpace lyrics) "Embed") eqn:Hs;
      [|apply TrimSpace_no_leading_space].
    apply HasSuffix_true in Hs. destruct Hs as [p Hp].
    rewrite Hp, CutSuffix_append. cbn [fst].
    assert (H := TrimSpace_no_leading_space lyrics). rewrite Hp in H.
    unfold startsWithSpace in *.
    destruct (cutSpace spaceEncodings (p ++ "Embed")) eqn:Hc; [discriminate|].
    now rewrite (cutSpace_app _ _ _ Hc). }
  split; [exact Hstart|]. split.
  - intros Hs. unfold trimEmbed. cbv zeta. rewrite Hs.
    apply TrimSpace_no_trailing_space.
  - intros parse body Hx. exists (trimEmbed lyrics). split; [|exact Hstart].
    unfold GetLyrics. now rewrite Hx.
Qed.

Lemma GetLyrics_white_space_witness :
  HasSuffix (TrimSpace (" la " ++ newline)) "Embed" = false /\
  endsWithSpace (trimEmbed (" la " ++ newline)) = false /\
  endsWithSpace (trimEmbed ("la" ++ newline ++ "Embed")) = true.
Proof.
  split; [reflexivity|]. split; [|reflexivity].
  exact (proj1 (proj2 (GetLyrics_white_space (" la " ++ newline))) eq_refl).
Defined.

(* ================================================================== *)
(** * Further properties of the request executor *)

Lemma headerValues_app h1 h2 k :
  headerValues (h1 ++ h2)%list k = (headerValues h1 k ++ headerValues h2 k)%list.
Proof. unfold headerValues. now rewrite filter_app, map_app. Qed.

Lemma headerValues_HeaderSet_same req k v :
  headerValues (Header (HeaderSet req k v)) k = [v].
Proof.
  unfold HeaderSet. cbn [Header]. rewrite headerValues_app.
  unfold headerValues at 2. cbn [filter fst]. rewrite String.eqb_refl.
  cbn [map snd]. 
  assert (H : headerValues
                (filter (fun kv => negb (String.eqb (fst kv) k)) (Header req)) k
              = []).
  { unfold headerValues. induction (Header req) as [|[k' v'] h IH];
      [reflexivity|]. cbn [filter fst].
    destruct (String.eqb k' k) eqn:He; cbn [negb]; [exact IH|].
    cbn [filter fst]. rewrite He. exact IH. }
  now rewrite H.
Qed.

Lemma headerValues_HeaderSet_other req k v k' :
  k' <> k ->
  headerValues (Header (HeaderSet req k v)) k' = headerValues (Header req) k'.
Proof.
  intros Hk. unfold HeaderSet. cbn [Header]. rewrite headerValues_app.
  unfold headerValues at 2. cbn [filter fst].
  assert (Hkk : String.eqb k k' = false)
    by (apply String.eqb_neq; congruence).
  rewrite Hkk. cbn [map]. rewrite app_nil_r.
  unfold headerValues. induction (Header req) as [|[k0 v0] h IH];
    [reflexivity|]. cbn [filter fst].
  destruct (String.eqb k0 k) eqn:He; cbn [negb].
  - apply String.eqb_eq in He. subst k0. rewrite Hkk. exact IH.
  - cbn [filter fst]. destruct (String.eqb k0 k'); cbn [map]; now rewrite IH.
Qed.

(** What a call that returns went through: rate-limited answers first,
    then the answer that settled it. *)
Lemma doRequestLoop_returned Do req fuel : forall attempt trace out trace',
  doRequestLoop Do req fuel attempt trace = Some (out, trace') ->
  exists resps,
    trace' = (trace ++ rounds req resps ++ [Sent req])%list /\
    (List.length resps < fuel)%nat /\
    (forall k resp, nth_error resps k = Some resp ->
       Do (attempt + k)%nat req = inl resp /\ throttled resp = true) /\
    match Do (attempt + List.length resps)%nat req with
    | inr err => out = Err err
    | inl resp =>
        throttled resp = false /\
        match Body resp with
        | inr err => out = Err err
        | inl body =>
            if (StatusCode resp =? 200)%Z then out = Ret body
            else out = Err (errorString body)
        end
    end.
Proof.
  induction fuel as [|fuel IH]; intros attempt trace out trace' H;
    [discriminate H|].
  cbn [doRequestLoop] in H.
  destruct (Do attempt req) as [resp|err] eqn:Hdo.
  - destruct ((StatusCode resp =? 429)%Z || (StatusCode resp =? 1015)%Z)%bool
      eqn:Hth.
    + apply IH in H. destruct H as (resps & Htr & Hlen & Hpre & Hlast).
      exists (resp :: resps). split; [|split; [|split]].
      * rewrite Htr. cbn [rounds flat_map]. fold (rounds req resps).
        rewrite <- !app_assoc. cbn [app]. reflexivity.
      * simpl. lia.
      * intros k r Hk. destruct k as [|k]; cbn [nth_error] in Hk.
        -- injection Hk as <-. rewrite Nat.add_0_r. split; [exact Hdo|].
           exact Hth.
        -- replace (attempt + S k)%nat with (S attempt + k)%nat by lia.
           now apply Hpre.
      * cbn [List.length].
        replace (attempt + S (List.length resps))%nat
          with (S attempt + List.length resps)%nat by lia.
        exact Hlast.
    + exists []. cbn [rounds flat_map List.length app].
      rewrite Nat.add_0_r, Hdo.
      split; [|split; [lia|split]].
      * destruct (Body resp); [destruct (negb _)|]; now injection H as _ <-.
      * intros k r Hk. destruct k; discriminate Hk.
      * split; [exact Hth|].
        destruct (Body resp) as [body|err].
        -- destruct (StatusCode resp =? 200)%Z; cbn [negb] in H;
             now injection H as <- _.
        -- now injection H as <- _.
  - exists []. cbn [rounds flat_map List.length app].
    rewrite Nat.add_0_r, Hdo. injection H as <- <-.
    split; [reflexivity|]. split; [lia|]. split; [|reflexivity].
    intros k r Hk. destruct k; discriminate Hk.
Qed.

(** X7: the request that goes out is the caller's with two headers set:
    it has the same URL, exactly one [Authorization] value, "Bearer "
    followed by the token, exactly one [Content-Type] value,
    "application/json", whatever the caller had put under these keys, and
    the caller's values under every other key; every request a call
    sends is that one. *)
Theorem doRequest_sends_authorized_request :
  forall (token : string) (req : HTTPRequest),
    URL (authorize token req) = URL req /\
    headerValues (Header (authorize token req)) "Authorization"
    = ["Bearer " ++ token] /\
    headerValues (Header (authorize token req)) "Content-Type"
    = ["application/json"] /\
    (forall k, k <> "Authorization" -> k <> "Content-Type" ->
       headerValues (Header (authorize token req)) k
       = headerValues (Header req) k) /\
    (forall Do fuel out trace,
       doRequest token Do req fuel = Some (out, trace) ->
       Forall (fun sent => sent = authorize token req) (sentRequests trace)).
Proof.
  intros token req. unfold authorize. repeat split.
  - rewrite headerValues_HeaderSet_other by discriminate.
    apply headerValues_HeaderSet_same.
  - apply headerValues_HeaderSet_same.
  - intros k Ha Hc. now rewrite !headerValues_HeaderSet_other.
  - intros Do fuel out trace H. unfold doRequest in H.
    apply doRequestLoop_returned in H. destruct H as (resps & -> & _).
    cbn [app]. rewrite sentRequests_app, sentRequests_rounds. cbn.
    apply Forall_app. split; [|repeat constructor].
    apply Forall_forall. intros x Hx. now apply repeat_spec in Hx.
Qed.

Lemma doRequest_sends_authorized_request_witness :
  headerValues
    (Header (authorize "t"
       (mkHTTPRequest "u" [("Authorization", "Basic x"); ("Accept", "*/*")])))
    "Authorization" = ["Bearer t"] /\
  headerValues
    (Header (authorize "t"
       (mkHTTPRequest "u" [("Authorization", "Basic x"); ("Accept", "*/*")])))
    "Accept" = ["*/*"].
Proof.
  destruct (doRequest_sends_authorized_request "t"
              (mkHTTPRequest "u" [("Authorization", "Basic x"); ("Accept", "*/*")]))
    as (_ & Ha & _ & Hk & _).
  split; [exact Ha|]. apply Hk; discriminate.
Defined.

(** X8: a call that returns has been answered by rate-limited responses
    only before its last attempt, has slept once after each of them and
    not after the last attempt, and never panics; it returns a body only
    when the last answer has status 200 and that body, and an error
    otherwise. *)
Theorem doRequest_returns_only_settled_answers :
  forall (token : string) (Do : nat -> HTTPRequest -> HTTPResponse + error)
         (req : HTTPRequest) (fuel : nat) (out : outcome string)
         (trace : list event),
    doRequest token Do req fuel = Some (out, trace) ->
    exists resps,
      throttledFirst Do (authorize token req) resps /\
      (List.length resps < fuel)%nat /\
      trace = (rounds (authorize token req) resps
               ++ [Sent (authorize token req)])%list /\
      List.length (sentRequests trace) = S (List.length (sleeps trace)) /\
      sleeps trace = map retryDuration resps /\
      out <> Panic /\
      (forall body, out = Ret body ->
         exists resp,
           Do (List.length resps) (authorize token req) = inl resp /\
           StatusCode resp = 200%Z /\ Body resp = inl body).
Proof.
  intros token Do req fuel out trace H. unfold doRequest in H.
  apply doRequestLoop_returned in H.
  destruct H as (resps & Htr & Hlen & Hpre & Hlast).
  cbn [app Nat.add] in Htr, Hlast.
  exists resps. split; [exact Hpre|]. split; [exact Hlen|].
  split; [exact Htr|].
  assert (Hsl : sleeps trace = map retryDuration resps).
  { rewrite Htr, sleeps_app, sleeps_rounds. simpl. apply app_nil_r. }
  split; [|split; [exact Hsl|]].
  { rewrite Hsl, Htr, sentRequests_app, sentRequests_rounds, length_app,
      repeat_length, length_map. simpl. lia. }
  destruct (Do (List.length resps) (authorize token req)) as [resp|err].
  - destruct Hlast as [_ Hlast]. destruct (Body resp) as [body|err] eqn:Hbody.
    + destruct (Z.eqb_spec (StatusCode resp) 200) as [Hs|Hs].
      * subst out. split; [discriminate|]. intros b Hb. injection Hb as <-.
        exists resp. repeat split; auto.
      * subst out. split; [discriminate | intros b Hb; discriminate Hb].
    + subst out. split; [discriminate | intros b Hb; discriminate Hb].
  - subst out. split; [discriminate | intros b Hb; discriminate Hb].
Qed.

Lemma doRequest_returns_only_settled_answers_witness :
  exists resps,
    throttledFirst flakyTransport (authorize "token" accountRequest) resps /\
    List.length resps = 2%nat.
Proof.
  destruct (doRequest_returns_only_settled_answers "token" flakyTransport
              accountRequest 3 (Err (errorString "boom"))
              (rounds (authorize "token" accountRequest) flakyResponses
               ++ [Sent (authorize "token" accountRequest)])%list eq_refl)
    as (resps & Hth & _ & Htr & _ & Hsl & _).
  exists resps. split; [exact Hth|].
  rewrite sleeps_app, sleeps_rounds in Hsl. simpl in Hsl.
  apply (f_equal (@List.length Duration)) in Hsl.
  rewrite length_map in Hsl. simpl in Hsl. lia.
Defined.

Lemma parseDigits_nondigit s1 : forall c s2 acc,
  isDigit c = false -> parseDigits (s1 ++ String c s2) acc = None.
Proof.
  induction s1 as [|x s1 IH]; intros c s2 acc Hc; simpl.
  - now rewrite Hc.
  - destruct (isDigit x); [now apply IH | reflexivity].
Qed.

Lemma retryDuration_unparsed resp :
  ParseInt10_32 (RetryAfter resp) = None ->
  retryDuration resp = defaultRetryDuration.
Proof.
  intros Hp. unfold retryDuration. rewrite Hp.
  destruct (String.eqb (RetryAfter resp) ""); reflexivity.
Qed.

(** X9: a [Retry-After] value that is not a plain decimal number, such as
    the HTTP date the header may also carry, gives the default wait: so
    does any value with a character other than a digit after its first
    character, and any value whose first character is neither a digit nor
    a sign. *)
Theorem retryDuration_defaults_on_non_numeric :
  forall (resp : HTTPResponse) (c0 : ascii) (rest : string),
    RetryAfter resp = String c0 rest ->
    (exists s1 c s2, rest = s1 ++ String c s2 /\ isDigit c = false) \/
    (isDigit c0 = false /\ c0 <> "+"%char /\ c0 <> "-"%char) ->
    retryDuration resp = (5 * Second)%Z.
Proof.
  intros resp c0 rest Hraw Hbad. change (5 * Second)%Z with defaultRetryDuration.
  apply retryDuration_unparsed. rewrite Hraw. unfold ParseInt10_32.
  destruct Hbad as [(s1 & c & s2 & Hrest & Hc)|(Hd & Hplus & Hminus)].
  - subst rest.
    destruct (Ascii.eqb c0 "+" || Ascii.eqb c0 "-")%bool.
    + destruct (s1 ++ String c s2) eqn:Hs; [reflexivity|].
      rewrite <- Hs. now rewrite parseDigits_nondigit.
    + change (String c0 (s1 ++ String c s2))
        with (String c0 s1 ++ String c s2).
      rewrite parseDigits_nondigit by exact Hc.
      destruct (String c0 s1 ++ String c s2); reflexivity.
  - apply Ascii.eqb_neq in Hplus, Hminus. rewrite Hplus, Hminus. cbn [orb].
    cbn [parseDigits]. now rewrite Hd.
Qed.

Lemma retryDuration_defaults_on_non_numeric_witness :
  retryDuration
    (mkHTTPResponse 429 "Wed, 21 Oct 2015 07:28:00 GMT" (inl ""))
  = (5 * Second)%Z /\
  retryDuration (mkHTTPResponse 429 "120s" (inl "")) = (5 * Second)%Z.
Proof.
  split.
  - apply (retryDuration_defaults_on_non_numeric
             (mkHTTPResponse 429 "Wed, 21 Oct 2015 07:28:00 GMT" (inl ""))
             "W" "ed, 21 Oct 2015 07:28:00 GMT" eq_refl).
    right. repeat split; discriminate.
  - apply (retryDuration_defaults_on_non_numeric
             (mkHTTPResponse 429 "120s" (inl "")) "1" "20s" eq_refl).
    left. exists "20", "s"%char, "". split; reflexivity.
Defined.

(** X10: the wait never overflows: whatever the header holds it lies
    between -2^31 and 2^31 - 1 seconds (a negative count of seconds is
    accepted and gives a negative wait), and it is a whole number of
    seconds. *)
Theorem retryDuration_bounds :
  forall resp : HTTPResponse,
    (- 2 ^ 31 * Second <= retryDuration resp <= (2 ^ 31 - 1) * Second)%Z /\
    (exists seconds, retryDuration resp = (seconds * Second)%Z) /\
    (forall z, (- 2 ^ 31 <= z < 0)%Z -> RetryAfter resp = Itoa z ->
               (retryDuration resp < 0)%Z).
Proof.
  intros resp.
  assert (Hcases : retryDuration resp = (5 * Second)%Z \/
                   exists z, (- 2 ^ 31 <= z <= 2 ^ 31 - 1)%Z /\
                             retryDuration resp = (z * Second)%Z).
  { destruct (ParseInt10_32 (RetryAfter resp)) as [z|] eqn:Hp.
    - right. exists z. split; [now apply ParseInt_range in Hp|].
      now apply retryDuration_parsed.
    - left. now apply retryDuration_unparsed. }
  change (2 ^ 31)%Z with 2147483648%Z in *. unfold Second in *.
  split; [|split].
  - destruct Hcases as [->|(z & Hz & ->)]; lia.
  - destruct Hcases as [->|(z & Hz & ->)]; eauto.
  - intros z Hz He. rewrite (retryDuration_parsed resp z).
    + unfold Second. lia.
    + rewrite He. apply ParseInt_Itoa.
      change (2 ^ 31)%Z with 2147483648%Z. lia.
Qed.

Lemma retryDuration_bounds_witness :
  (retryDuration (mkHTTPResponse 429 (Itoa (-3)) (inl "")) < 0)%Z.
Proof.
  apply (proj2 (proj2 (retryDuration_bounds
                         (mkHTTPResponse 429 (Itoa (-3)) (inl "")))) (-3)%Z);
    [vm_compute; split; [discriminate | reflexivity] | reflexivity].
Defined.

(* ================================================================== *)
(** * Further properties of the paginated fetches *)

Lemma albumsLoop_queries getPage (P : PageRequest -> Prop) :
  (forall p, (1 <= p)%Z -> P (mkPageRequest 50 p)) ->
  forall fuel k albums p trace,
    Forall P trace ->
    Forall P (snd (albumsLoop getPage fuel k albums p trace)).
Proof.
  intros HP. induction fuel as [|fuel IH]; intros k albums p trace Ht;
    cbn [albumsLoop]; [exact Ht|].
  destruct (Z.leb_spec 1 p) as [Hp|Hp]; [|exact Ht].
  assert (Ht' : Forall P (trace ++ [mkPageRequest 50 p])%list)
    by (apply Forall_app; split; [exact Ht | repeat constructor; now apply HP]).
  destruct (getPage k (mkPageRequest 50 p)) as [resp| |]; try exact Ht'.
  destruct (Response resp) as [body|]; [|exact Ht'].
  now apply IH.
Qed.

Lemma albumsLoop_keeps_first_query getPage q0 :
  forall fuel k albums p trace,
    nth_error trace 0 = Some q0 ->
    nth_error (snd (albumsLoop getPage fuel k albums p trace)) 0 = Some q0.
Proof.
  induction fuel as [|fuel IH]; intros k albums p trace Hq;
    cbn [albumsLoop]; [exact Hq|].
  assert (Hq' : nth_error (trace ++ [mkPageRequest 50 p])%list 0 = Some q0)
    by (destruct trace; [discriminate Hq | exact Hq]).
  destruct (1 <=? p)%Z; [|exact Hq].
  destruct (getPage k (mkPageRequest 50 p)) as [resp| |]; try exact Hq'.
  destruct (Response resp) as [body|]; [|exact Hq'].
  now apply IH.
Qed.

(** X11: whatever the service answers and however long the fetch runs,
    every page request of [GetArtistAlbums] asks for 50 albums and for a
    page number of at least 1, the first one for page 1. *)
Theorem GetArtistAlbums_queries :
  forall (getPage : nat -> PageRequest -> outcome GeniusResponse) (fuel : nat),
    Forall (fun q => per_page q = 50%Z /\ (1 <= page q)%Z)
      (snd (GetArtistAlbums getPage fuel)) /\
    nth_error (snd (GetArtistAlbums getPage (S fuel))) 0
    = Some (mkPageRequest 50 1).
Proof.
  intros getPage fuel. split.
  - unfold GetArtistAlbums. apply albumsLoop_queries; [|constructor].
    intros p Hp. split; [reflexivity | exact Hp].
  - unfold GetArtistAlbums. cbn [albumsLoop Z.leb Z.compare app].
    destruct (getPage 0%nat (mkPageRequest 50 1)) as [resp| |];
      try reflexivity.
    destruct (Response resp) as [body|]; [|reflexivity].
    now apply albumsLoop_keeps_first_query.
Qed.

Lemma getPerPage_le total fetched perPage :
  (getPerPage total fetched perPage <= perPage)%Z.
Proof.
  unfold getPerPage.
  destruct (Z.ltb_spec (int_sub total fetched) perPage); lia.
Qed.

Lemma songsLoop_bounded_queries getPage total (P : PageRequest -> Prop) :
  (forall n p, (0 < n <= 50)%Z -> P (mkPageRequest n p)) ->
  forall fuel k songs p perPg trace,
    (perPg <= 50)%Z ->
    Forall P trace ->
    Forall P (snd (songsLoop getPage false total 50 fuel k songs p perPg trace)).
Proof.
  intros HP. induction fuel as [|fuel IH];
    intros k songs p perPg trace Hle Ht; cbn [songsLoop orb]; [exact Ht|].
  destruct (Z.ltb_spec 0 perPg) as [Hpos|Hpos]; [|exact Ht].
  assert (Ht' : Forall P (trace ++ [mkPageRequest perPg p])%list).
  { apply Forall_app; split; [exact Ht|]. repeat constructor. apply HP. lia. }
  destruct (getPage k (mkPageRequest perPg p)) as [resp| |]; try exact Ht'.
  destruct (Response resp) as [body|]; [|exact Ht'].
  cbn [andb negb]. apply IH; [apply getPerPage_le | exact Ht'].
Qed.

(** X12: whatever the service answers and however long the fetch runs,
    every page request of a bounded [GetArtistSongs] asks for at least 1
    and at most 50 songs. *)
Theorem GetArtistSongs_bounded_page_sizes :
  forall (getPage : nat -> PageRequest -> outcome GeniusResponse)
         (total : Z) (fuel : nat),
    total <> (-1)%Z ->
    Forall (fun q => (0 < per_page q <= 50)%Z)
      (snd (GetArtistSongs getPage total fuel)).
Proof.
  intros getPage total fuel Ht. unfold GetArtistSongs.
  apply Z.eqb_neq in Ht. rewrite Ht. cbn [negb].
  apply songsLoop_bounded_queries;
    [intros n p Hn; exact Hn | apply getPerPage_le | constructor].
Qed.

Lemma GetArtistSongs_bounded_page_sizes_witness :
  Forall (fun q => (0 < per_page q <= 50)%Z)
    (snd (GetArtistSongs exhaustedServer 30 5)).
Proof.
  apply (GetArtistSongs_bounded_page_sizes exhaustedServer 30 5). discriminate.
Defined.

Lemma songsLoop_unbounded_queries getPage total perPage (P : PageRequest -> Prop) :
  (forall p, P (mkPageRequest 0 p)) ->
  forall fuel k songs p trace,
    Forall P trace ->
    Forall P (snd (songsLoop getPage true total perPage fuel k songs p 0 trace)).
Proof.
  intros HP. induction fuel as [|fuel IH]; intros k songs p trace Ht;
    cbn [songsLoop orb]; [exact Ht|].
  assert (Ht' : Forall P (trace ++ [mkPageRequest 0 p])%list)
    by (apply Forall_app; split; [exact Ht | repeat constructor; apply HP]).
  destruct (getPage k (mkPageRequest 0 p)) as [resp| |]; try exact Ht'.
  destruct (Response resp) as [body|]; [|exact Ht'].
  cbn [andb negb]. destruct (NextPage body =? 0)%Z; [exact Ht'|].
  now apply IH.
Qed.

(** X13: a fetch of everything ([total = -1]) never applies the page
    size of 50: the page size is left at its zero value, and every page
    request of the fetch asks for [per_page=0], the first one for page 1. *)
Theorem GetArtistSongs_unbounded_asks_zero_per_page :
  forall (getPage : nat -> PageRequest -> outcome GeniusResponse) (fuel : nat),
    Forall (fun q => per_page q = 0%Z)
      (snd (GetArtistSongs getPage (-1) fuel)) /\
    exists rest,
      snd (GetArtistSongs getPage (-1) (S fuel)) = mkPageRequest 0 1 :: rest.
Proof.
  intros getPage fuel. unfold GetArtistSongs. cbn [Z.eqb negb]. split.
  - apply songsLoop_unbounded_queries; [reflexivity | constructor].
  - destruct (songsLoop_sends getPage true (-1) 50 fuel 0 [] 1 0 [] eq_refl)
      as [rest Hrest].
    exists rest. exact Hrest.
Qed.

(** X14: a bounded fetch of nothing sends nothing: for a target of 0, or
    a negative target other than -1, [GetArtistSongs] returns no song and
    no error without a single page request. *)
Theorem GetArtistSongs_nothing_to_fetch :
  forall (getPage : nat -> PageRequest -> outcome GeniusResponse)
         (total : Z) (fuel : nat),
    (- 2 ^ 63 <= total <= 0)%Z ->
    total <> (-1)%Z ->
    GetArtistSongs getPage total (S fuel) = (Some (Ret []), []).
Proof.
  intros getPage total fuel Hr Ht. unfold GetArtistSongs.
  apply Z.eqb_neq in Ht. rewrite Ht. cbn [negb].
  assert (Hp : getPerPage total (int_mul (int_sub 1 1) 50) 50 = total).
  { unfold getPerPage. change (int_mul (int_sub 1 1) 50) with 0%Z.
    rewrite int_sub_small
      by (change (2 ^ 63)%Z with 9223372036854775808%Z in *; lia).
    rewrite Z.sub_0_r. destruct (Z.ltb_spec total 50); [reflexivity | lia]. }
  rewrite Hp. cbn [songsLoop orb].
  destruct (Z.ltb_spec 0 total); [lia | reflexivity].
Qed.

Lemma GetArtistSongs_nothing_to_fetch_witness :
  GetArtistSongs fullServer 0 1 = (Some (Ret []), []) /\
  GetArtistSongs fullServer (-7) 1 = (Some (Ret []), []).
Proof.
  split.
  - apply (GetArtistSongs_nothing_to_fetch fullServer 0 0);
      [vm_compute; split; discriminate | discriminate].
  - apply (GetArtistSongs_nothing_to_fetch fullServer (-7) 0);
      [vm_compute; split; discriminate | discriminate].
Defined.

Lemma albumsLoop_aborts getPage pages bad :
  match bad with Ret r => Response r = None | _ => True end ->
  forall fuel k albums p trace,
    (forall i b q, nth_error pages i = Some b ->
                   getPage (k + i)%nat q = envelope b) ->
    (forall q, getPage (k + List.length pages)%nat q = bad) ->
    (forall b, In b pages -> (1 <= NextPage b)%Z) ->
    (1 <= p)%Z ->
    (List.length pages < fuel)%nat ->
    exists trace',
      albumsLoop getPage fuel k albums p trace
      = (Some (match bad with Err e => Err e | _ => Panic end), trace') /\
      List.length trace' = (List.length trace + S (List.length pages))%nat.
Proof.
  intros Hbad. induction pages as [|b pages IH];
    intros fuel k albums p trace Hsrv Hfail Hnext Hp Hfuel.
  - destruct fuel as [|fuel]; [simpl in Hfuel; lia|].
    cbn [albumsLoop]. destruct (Z.leb_spec 1 p); [|lia].
    specialize (Hfail (mkPageRequest 50 p)).
    cbn [List.length] in Hfail. rewrite Nat.add_0_r in Hfail. rewrite Hfail.
    destruct bad as [r|e|].
    + rewrite Hbad. eexists. split; [reflexivity|].
      rewrite length_app. simpl. lia.
    + eexists. split; [reflexivity|]. rewrite length_app. simpl. lia.
    + eexists. split; [reflexivity|]. rewrite length_app. simpl. lia.
  - destruct fuel as [|fuel]; [simpl in Hfuel; lia|].
    cbn [albumsLoop]. destruct (Z.leb_spec 1 p); [|lia].
    rewrite (first_answer getPage k _ b Hsrv eq_refl). cbn [envelope Response].
    destruct (IH fuel (S k) (albums ++ Albums b)%list (NextPage b)
                (trace ++ [mkPageRequest 50 p])%list)
      as (trace' & Hrun & Hlen).
    + intros i b' q Hi. replace (S k + i)%nat with (k + S i)%nat by lia.
      apply Hsrv. exact Hi.
    + intros q. replace (S k + List.length pages)%nat
        with (k + List.length (b :: pages))%nat by (simpl; lia).
      apply Hfail.
    + intros b' Hb'. apply Hnext. now right.
    + apply Hnext. now left.
    + simpl in Hfuel. lia.
    + exists trace'. split; [exact Hrun|].
      rewrite Hlen, length_app. simpl. lia.
Qed.

Lemma songsLoop_aborts getPage total perPage pages bad :
  match bad with Ret r => Response r = None | _ => True end ->
  forall fuel k songs p perPg trace,
    (forall i b q, nth_error pages i = Some b ->
                   getPage (k + i)%nat q = envelope b) ->
    (forall q, getPage (k + List.length pages)%nat q = bad) ->
    (forall b, In b pages -> (1 <= NextPage b)%Z) ->
    (List.length pages < fuel)%nat ->
    exists trace',
      songsLoop getPage true total perPage fuel k songs p perPg trace
      = (Some (match bad with Err e => Err e | _ => Panic end), trace') /\
      List.length trace' = (List.length trace + S (List.length pages))%nat.
Proof.
  intros Hbad. induction pages as [|b pages IH];
    intros fuel k songs p perPg trace Hsrv Hfail Hnext Hfuel.
  - destruct fuel as [|fuel]; [simpl in Hfuel; lia|].
    cbn [songsLoop orb].
    specialize (Hfail (mkPageRequest perPg p)).
    cbn [List.length] in Hfail. rewrite Nat.add_0_r in Hfail. rewrite Hfail.
    destruct bad as [r|e|].
    + rewrite Hbad. eexists. split; [reflexivity|].
      rewrite length_app. simpl. lia.
    + eexists. split; [reflexivity|]. rewrite length_app. simpl. lia.
    + eexists. split; [reflexivity|]. rewrite length_app. simpl. lia.
  - destruct fuel as [|fuel]; [simpl in Hfuel; lia|].
    cbn [songsLoop orb].
    rewrite (first_answer getPage k _ b Hsrv eq_refl).
    cbn [envelope Response andb negb].
    assert (Hb : (NextPage b =? 0)%Z = false).
    { apply Z.eqb_neq. specialize (Hnext b (or_introl eq_refl)). lia. }
    rewrite Hb.
    destruct (IH fuel (S k) (songs ++ Songs b)%list (NextPage b) perPg
                (trace ++ [mkPageRequest perPg p])%list)
      as (trace' & Hrun & Hlen).
    + intros i b' q Hi. replace (S k + i)%nat with (k + S i)%nat by lia.
      apply Hsrv. exact Hi.
    + intros q. replace (S k + List.length pages)%nat
        with (k + List.length (b :: pages))%nat by (simpl; lia).
      apply Hfail.
    + intros b' Hb'. apply Hnext. now right.
    + simpl in Hfuel. lia.
    + exists trace'. split; [exact Hrun|].
      rewrite Hlen, length_app. simpl. lia.
Qed.

(** X15: the first page call that fails ends the fetch, and nothing of
    what the pages before it held is returned: when it returns an error,
    [GetArtistSongs] (fetching everything) and [GetArtistAlbums] return
    that error; when it returns an envelope without response, or panics,
    they panic.  No page is asked for after the failure. *)
Theorem paginated_fetch_aborts_on_first_failure :
  forall (getPage : nat -> PageRequest -> outcome GeniusResponse)
         (pages : list ResponseBody) (bad : outcome GeniusResponse)
         (fuel : nat),
    (forall i b q, nth_error pages i = Some b -> getPage i q = envelope b) ->
    (forall q, getPage (List.length pages) q = bad) ->
    match bad with Ret r => Response r = None | _ => True end ->
    (forall b, In b pages -> (1 <= NextPage b)%Z) ->
    (List.length pages < fuel)%nat ->
    (exists trace,
       GetArtistSongs getPage (-1) fuel
       = (Some (match bad with Err e => Err e | _ => Panic end), trace) /\
       List.length trace = S (List.length pages)) /\
    (exists trace,
       GetArtistAlbums getPage fuel
       = (Some (match bad with Err e => Err e | _ => Panic end), trace) /\
       List.length trace = S (List.length pages)).
Proof.
  intros getPage pages bad fuel Hsrv Hfail Hbad Hnext Hfuel. split.
  - unfold GetArtistSongs. cbn [Z.eqb negb].
    destruct (songsLoop_aborts getPage (-1) 50 pages bad Hbad fuel 0 [] 1 0 [])
      as (trace & Hrun & Hlen); auto.
    exists trace. split; [exact Hrun | exact Hlen].
  - unfold GetArtistAlbums.
    destruct (albumsLoop_aborts getPage pages bad Hbad fuel 0 [] 1 [])
      as (trace & Hrun & Hlen); auto; try lia.
    exists trace. split; [exact Hrun | exact Hlen].
Qed.

Lemma paginated_fetch_aborts_on_first_failure_witness :
  (exists trace,
     GetArtistAlbums failingServer 5
     = (Some (Err (errorString "upstream")), trace) /\
     List.length trace = 2%nat) /\
  (exists trace,
     GetArtistSongs hollowServer (-1) 5 = (Some Panic, trace) /\
     List.length trace = 2%nat).
Proof.
  split.
  - refine (proj2 (paginated_fetch_aborts_on_first_failure failingServer
                     [mkResponseBody [mkSong 1] [mkAlbum 7] 2]
                     (Err (errorString "upstream")) 5 _ _ I _ _)).
    + intros i b q Hi. destruct i as [|[|i]]; simpl in Hi;
        [injection Hi as <-; reflexivity | discriminate | discriminate].
    + reflexivity.
    + intros b [<-|[]]. simpl. lia.
    + simpl. lia.
  - refine (proj1 (paginated_fetch_aborts_on_first_failure hollowServer
                     [mkResponseBody [mkSong 1] [mkAlbum 7] 2]
                     (Ret (mkGeniusResponse None)) 5 _ _ eq_refl _ _)).
    + intros i b q Hi. destruct i as [|[|i]]; simpl in Hi;
        [injection Hi as <-; reflexivity | discriminate | discriminate].
    + reflexivity.
    + intros b [<-|[]]. simpl. lia.
    + simpl. lia.
Defined.

Lemma albumsLoop_runs_on getPage :
  (forall k q, exists b, getPage k q = envelope b /\ (1 <= NextPage b)%Z) ->
  forall fuel k albums p trace,
    (1 <= p)%Z ->
    exists trace',
      albumsLoop getPage fuel k albums p trace = (None, trace') /\
      List.length trace' = (List.length trace + fuel)%nat.
Proof.
  intros Hsrv. induction fuel as [|fuel IH]; intros k albums p trace Hp.
  - exists trace. split; [reflexivity | lia].
  - cbn [albumsLoop]. destruct (Z.leb_spec 1 p); [|lia].
    destruct (Hsrv k (mkPageRequest 50 p)) as (b & Hb & Hn). rewrite Hb.
    cbn [envelope Response].
    destruct (IH (S k) (albums ++ Albums b)%list (NextPage b)
                (trace ++ [mkPageRequest 50 p])%list Hn) as (trace' & Hrun & Hlen).
    exists trace'. split; [exact Hrun|]. rewrite Hlen, length_app. simpl. lia.
Qed.

Lemma songsLoop_runs_on getPage total perPage :
  (forall k q, exists b, getPage k q = envelope b /\ (1 <= NextPage b)%Z) ->
  forall fuel k songs p perPg trace,
    exists trace',
      songsLoop getPage true total perPage fuel k songs p perPg trace
      = (None, trace') /\
      List.length trace' = (List.length trace + fuel)%nat.
Proof.
  intros Hsrv. induction fuel as [|fuel IH]; intros k songs p perPg trace.
  - exists trace. split; [reflexivity | lia].
  - cbn [songsLoop orb].
    destruct (Hsrv k (mkPageRequest perPg p)) as (b & Hb & Hn). rewrite Hb.
    cbn [envelope Response andb negb].
    assert (Hz : (NextPage b =? 0)%Z = false) by (apply Z.eqb_neq; lia).
    rewrite Hz.
    destruct (IH (S k) (songs ++ Songs b)%list (NextPage b) perPg
                (trace ++ [mkPageRequest perPg p])%list) as (trace' & Hrun & Hlen).
    exists trace'. split; [exact Hrun|]. rewrite Hlen, length_app. simpl. lia.
Qed.

(** X21: nothing but the service ends a fetch of everything: as long as
    every answer names a next page, [GetArtistSongs] (fetching
    everything) and [GetArtistAlbums] go on asking, one page request per
    round, and do not return. *)
Theorem unbounded_fetch_runs_while_next_page_named :
  forall (getPage : nat -> PageRequest -> outcome GeniusResponse) (fuel : nat),
    (forall k q, exists b, getPage k q = envelope b /\ (1 <= NextPage b)%Z) ->
    (exists trace, GetArtistSongs getPage (-1) fuel = (None, trace) /\
                   List.length trace = fuel) /\
    (exists trace, GetArtistAlbums getPage fuel = (None, trace) /\
                   List.length trace = fuel).
Proof.
  intros getPage fuel Hsrv. split.
  - unfold GetArtistSongs. cbn [Z.eqb negb].
    destruct (songsLoop_runs_on getPage (-1) 50 Hsrv fuel 0 [] 1 0 [])
      as (trace & Hrun & Hlen).
    exists trace. split; [exact Hrun | exact Hlen].
  - unfold GetArtistAlbums.
    destruct (albumsLoop_runs_on getPage Hsrv fuel 0 [] 1 []) as (trace & Hrun & Hlen);
      [lia|].
    exists trace. split; [exact Hrun | exact Hlen].
Qed.

Lemma unbounded_fetch_runs_while_next_page_named_witness :
  exists trace, GetArtistAlbums endlessServer 7 = (None, trace) /\
                List.length trace = 7%nat.
Proof.
  refine (proj2 (unbounded_fetch_runs_while_next_page_named endlessServer 7 _)).
  intros k q. eexists. split; [reflexivity|]. cbn [NextPage]. lia.
Defined.

(* ================================================================== *)
(** * Properties of the search helpers *)

Lemma collectHits_eq sections itemType : forall hits,
  collectHits sections itemType hits
  = (hits ++ flat_map Hits
       (filter (fun section => String.eqb (SectionType section) itemType)
          sections))%list.
Proof.
  induction sections as [|section sections IH]; intros hits; simpl.
  - now rewrite app_nil_r.
  - rewrite IH. destruct (String.eqb (SectionType section) itemType); simpl.
    + now rewrite app_assoc.
    + reflexivity.
Qed.

Lemma collectHits_hitsOfType sections itemType :
  collectHits sections itemType [] = hitsOfType (mkSearchBody sections) itemType.
Proof. now rewrite collectHits_eq. Qed.

Lemma matchLoop_other_resultType EqualFold Title resultType term hits :
  EqualFold resultType "name" = false ->
  matchLoop EqualFold Title resultType term hits = None.
Proof.
  intros He. induction hits as [|hit hits IH]; simpl; [reflexivity|].
  now rewrite He.
Qed.

Lemma matchLoop_skips EqualFold Title resultType term pre : forall rest,
  (forall h, In h pre ->
     exists s, Result h = Some s /\ EqualFold (Title s) term = false) ->
  matchLoop EqualFold Title resultType term (pre ++ rest)%list
  = matchLoop EqualFold Title resultType term rest.
Proof.
  induction pre as [|h pre IH]; intros rest Hpre; [reflexivity|].
  destruct (Hpre h (or_introl eq_refl)) as (s & Hs & Hf).
  cbn [app matchLoop]. rewrite Hs, Hf.
  rewrite IH by (intros h' Hh'; apply Hpre; now right).
  destruct (EqualFold resultType "name"); [reflexivity|].
  symmetry. clear. induction rest as [|x rest IH]; [reflexivity|].
  cbn [matchLoop]. destruct (EqualFold resultType "name"); [|exact IH].
  destruct (Result x) as [s|]; [|reflexivity].
  destruct (EqualFold (Title s) term); [reflexivity | exact IH].
Qed.

Lemma matchLoop_returns_a_hit EqualFold Title resultType term hits : forall r,
  matchLoop EqualFold Title resultType term hits = Some (Ret r) ->
  exists hit, In hit hits /\ Result hit = r.
Proof.
  induction hits as [|hit hits IH]; intros r H; [discriminate H|].
  cbn [matchLoop] in H.
  destruct (EqualFold resultType "name").
  - destruct (Result hit) as [s|] eqn:Hr; [|discriminate H].
    destruct (EqualFold (Title s) term).
    + injection H as <-. exists hit. split; [now left | exact Hr].
    + destruct (IH r H) as (h & Hh & Hres). exists h. split; [now right | exact Hres].
  - destruct (IH r H) as (h & Hh & Hres). exists h. split; [now right | exact Hres].
Qed.

Lemma matchLoop_never_errs EqualFold Title resultType term hits err :
  matchLoop EqualFold Title resultType term hits <> Some (Err err).
Proof.
  induction hits as [|hit hits IH]; cbn [matchLoop]; [discriminate|].
  destruct (EqualFold resultType "name"); [|exact IH].
  destruct (Result hit) as [s|]; [|discriminate].
  destruct (EqualFold (Title s) term); [discriminate | exact IH].
Qed.

(** X16: [GetSongFromSearchResponse] does not look at the search term to
    choose its result (it passes "title" where the matching loop expects
    "name"): it returns the first hit of the sections of type "song",
    whatever the term, and the term only shows in the error returned when
    there is no such hit. *)
Theorem GetSongFromSearchResponse_ignores_term :
  forall (EqualFold : string -> string -> bool) (Title : Song -> string)
         (sections : list SearchSection),
    EqualFold "title" "name" = false ->
    (forall hit hits term,
       hitsOfType (mkSearchBody sections) "song" = hit :: hits ->
       GetSongFromSearchResponse EqualFold Title (searchResponse sections) term
       = Ret (Result hit)) /\
    (forall term,
       hitsOfType (mkSearchBody sections) "song" = [] ->
       GetSongFromSearchResponse EqualFold Title (searchResponse sections) term
       = Err (errorString ("could not find a match for: " ++ term))).
Proof.
  intros EqualFold Title sections He.
  unfold GetSongFromSearchResponse, getItemFromSearchResponse, searchResponse.
  cbn [SearchResponse Sections]. rewrite collectHits_hitsOfType.
  split.
  - intros hit hits term Hh.
    rewrite matchLoop_other_resultType by exact He. now rewrite Hh.
  - intros term Hh.
    rewrite matchLoop_other_resultType by exact He. now rewrite Hh.
Qed.

Lemma GetSongFromSearchResponse_ignores_term_witness :
  GetSongFromSearchResponse String.eqb sampleTitle (searchResponse sampleSearch)
    "Waterloo" = Ret (Some (mkSong 3)) /\
  sampleTitle (mkSong 3) = "Hello".
Proof.
  split; [|reflexivity].
  exact (proj1 (GetSongFromSearchResponse_ignores_term String.eqb sampleTitle
                  sampleSearch eq_refl) _ _ "Waterloo" eq_refl).
Defined.

(** X17: [GetArtistFromSearchResponse] compares the term with the title
    of each hit of the sections of type "artist", case folded, in order:
    it returns the first hit whose title matches; when no title matches
    it returns the first hit all the same; and it panics on a hit without
    result that no matching hit precedes. *)
Theorem GetArtistFromSearchResponse_first_match :
  forall (EqualFold : string -> string -> bool) (Title : Song -> string)
         (sections : list SearchSection) (term : string)
         (pre post : list Hit) (hit : Hit),
    EqualFold "name" "name" = true ->
    hitsOfType (mkSearchBody sections) "artist" = (pre ++ hit :: post)%list ->
    (forall h, In h pre ->
       exists s, Result h = Some s /\ EqualFold (Title s) term = false) ->
    (forall s, Result hit = Some s -> EqualFold (Title s) term = true ->
       GetArtistFromSearchResponse EqualFold Title (searchResponse sections) term
       = Ret (Some s)) /\
    (Result hit = None ->
       GetArtistFromSearchResponse EqualFold Title (searchResponse sections) term
       = Panic) /\
    (forall s first,
       Result hit = Some s -> EqualFold (Title s) term = false ->
       (forall h, In h post ->
          exists s', Result h = Some s' /\ EqualFold (Title s') term = false) ->
       hd_error (pre ++ hit :: post)%list = Some first ->
       GetArtistFromSearchResponse EqualFold Title (searchResponse sections) term
       = Ret (Result first)).
Proof.
  intros EqualFold Title sections term pre post hit He Hh Hpre.
  unfold GetArtistFromSearchResponse, getItemFromSearchResponse, searchResponse.
  cbn [SearchResponse Sections]. rewrite collectHits_hitsOfType, Hh.
  rewrite matchLoop_skips by exact Hpre. cbn [matchLoop]. rewrite He.
  split; [|split].
  - intros s Hs Hm. now rewrite Hs, Hm.
  - intros Hn. now rewrite Hn.
  - intros s first Hs Hm Hpost Hfirst. rewrite Hs, Hm.
    rewrite <- (app_nil_r post).
    rewrite matchLoop_skips by exact Hpost. cbn [matchLoop].
    rewrite app_nil_r.
    destruct (pre ++ hit :: post)%list as [|x l] eqn:Hl;
      [destruct pre; discriminate Hl|].
    cbn [hd_error] in Hfirst. injection Hfirst as <-. reflexivity.
Qed.

Lemma GetArtistFromSearchResponse_first_match_witness :
  GetArtistFromSearchResponse String.eqb sampleTitle (searchResponse sampleSearch)
    "ABBA" = Ret (Some (mkSong 2)) /\
  GetArtistFromSearchResponse String.eqb sampleTitle (searchResponse sampleSearch)
    "Queen" = Ret (Some (mkSong 1)).
Proof.
  split.
  - refine (proj1 (GetArtistFromSearchResponse_first_match String.eqb sampleTitle
                     sampleSearch "ABBA" [mkHit (Some (mkSong 1))] []
                     (mkHit (Some (mkSong 2))) eq_refl eq_refl _)
              (mkSong 2) eq_refl eq_refl).
    intros h [<-|[]]. exists (mkSong 1). split; reflexivity.
  - refine (proj2 (proj2 (GetArtistFromSearchResponse_first_match String.eqb
                     sampleTitle sampleSearch "Queen" [mkHit (Some (mkSong 1))] []
                     (mkHit (Some (mkSong 2))) eq_refl eq_refl _))
              (mkSong 2) (mkHit (Some (mkSong 1))) eq_refl eq_refl _ eq_refl).
    + intros h [<-|[]]. exists (mkSong 1). split; reflexivity.
    + intros h [].
Defined.

(** X18: the search helpers return an error exactly when the response
    has no hit in a section of the type asked for, and the error then
    names the search term; a nil response, or one without payload, makes
    them panic. *)
Theorem getItemFromSearchResponse_error_iff_no_hit :
  forall (EqualFold : string -> string -> bool) (Title : Song -> string)
         (sections : list SearchSection) (term itemType resultType : string),
    ((exists err,
        getItemFromSearchResponse EqualFold Title (searchResponse sections)
          term itemType resultType = Err err)
     <-> hitsOfType (mkSearchBody sections) itemType = []) /\
    (hitsOfType (mkSearchBody sections) itemType = [] ->
     getItemFromSearchResponse EqualFold Title (searchResponse sections)
       term itemType resultType
     = Err (errorString ("could not find a match for: " ++ term))) /\
    getItemFromSearchResponse EqualFold Title None term itemType resultType
    = Panic /\
    getItemFromSearchResponse EqualFold Title
      (Some (mkSearchEnvelope None)) term itemType resultType = Panic.
Proof.
  intros EqualFold Title sections term itemType resultType.
  assert (Hnone : hitsOfType (mkSearchBody sections) itemType = [] ->
     getItemFromSearchResponse EqualFold Title (searchResponse sections)
       term itemType resultType
     = Err (errorString ("could not find a match for: " ++ term))).
  { intros Hh. unfold getItemFromSearchResponse, searchResponse.
    cbn [SearchResponse Sections]. now rewrite collectHits_hitsOfType, Hh. }
  split; [|split; [exact Hnone | split; reflexivity]].
  split.
  - intros [err Herr]. unfold getItemFromSearchResponse, searchResponse in Herr.
    cbn [SearchResponse Sections] in Herr.
    rewrite collectHits_hitsOfType in Herr.
    destruct (hitsOfType (mkSearchBody sections) itemType) as [|hit hits];
      [reflexivity|].
    destruct (matchLoop EqualFold Title resultType term (hit :: hits))
      as [r|] eqn:Hm.
    + subst r. now apply matchLoop_never_errs in Hm.
    + discriminate Herr.
  - intros Hh. eexists. now apply Hnone.
Qed.

Lemma getItemFromSearchResponse_error_iff_no_hit_witness :
  hitsOfType (mkSearchBody sampleSearch) "album" = [] /\
  getItemFromSearchResponse String.eqb sampleTitle (searchResponse sampleSearch)
    "Arrival" "album" "name"
  = Err (errorString "could not find a match for: Arrival").
Proof.
  split; [reflexivity|].
  exact (proj1 (proj2 (getItemFromSearchResponse_error_iff_no_hit String.eqb
                         sampleTitle sampleSearch "Arrival" "album" "name"))
           eq_refl).
Defined.

(** X19: a result the search helpers return always is the result of a
    hit of a section of the type asked for. *)
Theorem getItemFromSearchResponse_result_is_a_hit :
  forall (EqualFold : string -> string -> bool) (Title : Song -> string)
         (sections : list SearchSection) (term itemType resultType : string)
         (r : option Song),
    getItemFromSearchResponse EqualFold Title (searchResponse sections)
      term itemType resultType = Ret r ->
    exists section hit,
      In section sections /\ SectionType section = itemType /\
      In hit (Hits section) /\ Result hit = r.
Proof.
  intros EqualFold Title sections term itemType resultType r H.
  unfold getItemFromSearchResponse, searchResponse in H.
  cbn [SearchResponse Sections] in H. rewrite collectHits_hitsOfType in H.
  assert (Hin : exists hit,
            In hit (hitsOfType (mkSearchBody sections) itemType) /\
            Result hit = r).
  { destruct (matchLoop EqualFold Title resultType term
                (hitsOfType (mkSearchBody sections) itemType)) as [o|] eqn:Hm.
    - subst o. now apply matchLoop_returns_a_hit in Hm.
    - destruct (hitsOfType (mkSearchBody sections) itemType) as [|hit hits];
        [discriminate H|].
      cbn in H. injection H as <-. exists hit. split; [now left | reflexivity]. }
  destruct Hin as (hit & Hhit & Hr). unfold hitsOfType in Hhit.
  cbn [Sections] in Hhit. apply in_flat_map in Hhit.
  destruct Hhit as (section & Hsec & Hh). apply filter_In in Hsec.
  destruct Hsec as [Hsec Ht]. apply String.eqb_eq in Ht.
  exists section, hit. auto.
Qed.

Lemma getItemFromSearchResponse_result_is_a_hit_witness :
  exists section hit,
    In section sampleSearch /\ SectionType section = "artist" /\
    In hit (Hits section) /\ Result hit = Some (mkSong 2).
Proof.
  exact (getItemFromSearchResponse_result_is_a_hit String.eqb sampleTitle
           sampleSearch "ABBA" "artist" "name" (Some (mkSong 2)) eq_refl).
Defined.

(* ================================================================== *)
(** * Properties of the client's construction *)

Lemma last_cons_default (u : string) urls : forall d,
  last (u :: urls) d = last urls u.
Proof.
  revert u. induction urls as [|v urls IH]; intros u d; [reflexivity|].
  change (last (u :: v :: urls) d) with (last (v :: urls) d).
  rewrite (IH v d). symmetry. apply (IH v u).
Qed.

Lemma fold_WithBaseURL urls : forall c,
  AccessToken (fold_left (fun c opt => opt c) (map WithBaseURL urls) c)
  = AccessToken c /\
  unofficialUrl (fold_left (fun c opt => opt c) (map WithBaseURL urls) c)
  = unofficialUrl c /\
  client (fold_left (fun c opt => opt c) (map WithBaseURL urls) c)
  = client c /\
  baseURL (fold_left (fun c opt => opt c) (map WithBaseURL urls) c)
  = last urls (baseURL c).
Proof.
  induction urls as [|u urls IH]; intros c.
  - repeat split.
  - cbn [map fold_left]. destruct (IH (WithBaseURL u c)) as (Ha & Hu & Hc & Hb).
    rewrite Ha, Hu, Hc, Hb. repeat split.
    cbn [WithBaseURL baseURL]. symmetry. apply last_cons_default.
Qed.

(** X20: [NewClient] keeps the token, talks to https://api.genius.com
    and https://genius.com/api, and uses the client it is given, or the
    default client when given none; [WithBaseURL] options change the base
    URL only, and of several the last one applies. *)
Theorem NewClient_WithBaseURL :
  forall (http_DefaultClient : HTTPClient) (httpClient : option HTTPClient)
         (token : string) (urls : list string),
    let c := NewClient http_DefaultClient httpClient token
               (map WithBaseURL urls) in
    AccessToken c = token /\
    unofficialUrl c = "https://genius.com/api" /\
    baseURL c = last urls "https://api.genius.com" /\
    client c = match httpClient with
               | None => http_DefaultClient
               | Some h => h
               end.
Proof.
  intros dflt httpClient token urls. unfold NewClient.
  destruct (fold_WithBaseURL urls
              (mkClient token "https://api.genius.com" "https://genius.com/api"
                 (match httpClient with None => dflt | Some h => h end)))
    as (Ha & Hu & Hc & Hb).
  cbv zeta. rewrite Ha, Hu, Hc, Hb. repeat split.
Qed.
